(** * Rent Shares: the share-allocation computation of [onValid] (src/App.tsx)

    The submit handler [onValid] turns a validated [BillPay] form value into
    one [RelevantInfo] row per participant and the household gross income.
    This development embeds that handler and proves the properties the
    specification states about it.

    Arithmetic.  The handler is embedded twice.

    - Over [num], the numbers of the specification: an exact rational, or one
      of the three non-finite values [NaN], [+Infinity], [-Infinity].  The
      operators follow ECMAScript on the non-finite values and on division by
      zero; on finite operands they are exact, and the two zeros are one.
      What is proved over [num] about the structure of the computation
      (which value goes where, which comparison decides) does not depend on
      how an operator rounds.  The conservation laws (C1, C6) do: they are
      stated for exact arithmetic and say so.

    - Over [float] (module [Binary64]), the numbers of the machine: IEEE 754
      binary64 with rounding to nearest, overflow and underflow, which is
      what a JavaScript [number] is.  The inputs on which the running code
      departs from a statement about real numbers are evaluated there, and
      the sign of the incomes (C10) is proved there.

    Beyond the handler the development embeds the rest of the component: the
    schema-driven submit with [onInvalid], the step buttons, adding and
    deleting participants, the result table, and [formatDollarAmount]. *)

From Stdlib Require Import QArith Qcanon Qround ZArith Lia Lqa Ascii Floats.
From stdpp Require Import base option list strings pretty gmap.

Open Scope Qc_scope.

(** ** JavaScript numbers *)

Module Num.

Inductive num : Type :=
  | Fin (q : Qc)
  | PInf
  | NInf
  | NaN.

Definition of_Z (z : Z) : num := Fin (Q2Qc (inject_Z z)).
Definition of_nat (n : nat) : num := of_Z (Z.of_nat n).

Definition finite (x : num) : bool :=
  match x with Fin _ => true | _ => false end.

Definition isNaN (x : num) : bool :=
  match x with NaN => true | _ => false end.

Definition Qcltb (a b : Qc) : bool :=
  match a ?= b with Lt => true | _ => false end.

Definition Qceqb (a b : Qc) : bool :=
  match a ?= b with Eq => true | _ => false end.

(** [x + y] *)
Definition add (x y : num) : num :=
  match x, y with
  | NaN, _ | _, NaN => NaN
  | PInf, NInf | NInf, PInf => NaN
  | PInf, _ | _, PInf => PInf
  | NInf, _ | _, NInf => NInf
  | Fin a, Fin b => Fin (a + b)
  end.

Definition neg (x : num) : num :=
  match x with
  | Fin a => Fin (- a)
  | PInf => NInf
  | NInf => PInf
  | NaN => NaN
  end.

(** [x - y] *)
Definition sub (x y : num) : num := add x (neg y).

(** The infinity of the given sign ([true] is negative). *)
Definition inf (negative : bool) : num := if negative then NInf else PInf.

(** Sign bit of a value that is not [NaN]; the model's zero is [+0]. *)
Definition signbit (x : num) : bool :=
  match x with
  | Fin a => Qcltb a 0
  | NInf => true
  | _ => false
  end.

(** [x * y] *)
Definition mul (x y : num) : num :=
  match x, y with
  | NaN, _ | _, NaN => NaN
  | Fin a, Fin b => Fin (a * b)
  | Fin a, _ => if Qceqb a 0 then NaN else inf (xorb (signbit x) (signbit y))
  | _, Fin b => if Qceqb b 0 then NaN else inf (xorb (signbit x) (signbit y))
  | _, _ => inf (xorb (signbit x) (signbit y))
  end.

(** [x / y] *)
Definition div (x y : num) : num :=
  match x, y with
  | NaN, _ | _, NaN => NaN
  | Fin a, Fin b =>
      if Qceqb b 0
      then (if Qceqb a 0 then NaN else inf (signbit x))
      else Fin (a / b)
  | Fin _, _ => Fin 0
  | _, Fin _ => inf (xorb (signbit x) (signbit y))
  | _, _ => NaN
  end.

(** [x < y] *)
Definition lt (x y : num) : bool :=
  match x, y with
  | NaN, _ | _, NaN => false
  | Fin a, Fin b => Qcltb a b
  | NInf, NInf | PInf, _ => false
  | NInf, _ => true
  | Fin _, PInf => true
  | Fin _, NInf => false
  end.

(** [x > y] *)
Definition gt (x y : num) : bool := lt y x.

(** [x <= y] *)
Definition le (x y : num) : bool :=
  match x, y with
  | NaN, _ | _, NaN => false
  | Fin a, Fin b => negb (Qcltb b a)
  | NInf, _ | _, PInf => true
  | _, _ => false
  end.

(** ToBoolean on a number: [0] and [NaN] are falsy. *)
Definition truthy (x : num) : bool :=
  match x with
  | Fin a => negb (Qceqb a 0)
  | NaN => false
  | _ => true
  end.

(** [x || y] on numbers. *)
Definition or_else (x y : num) : num := if truthy x then x else y.

(** Decidable equality, by comparison of the canonical fractions. *)
Definition eqb (x y : num) : bool :=
  match x, y with
  | Fin a, Fin b => Qceqb a b
  | PInf, PInf | NInf, NInf | NaN, NaN => true
  | _, _ => false
  end.

End Num.

Export Num.

Declare Scope num_scope.
Delimit Scope num_scope with num.
Bind Scope num_scope with num.
Infix "+" := add : num_scope.
Infix "-" := sub : num_scope.
Infix "*" := mul : num_scope.
Infix "/" := div : num_scope.
Notation "x <? y" := (lt x y) : num_scope.
Notation "x >? y" := (gt x y) : num_scope.
Notation "x <=? y" := (le x y) : num_scope.
Notation "# z" := (of_Z z) (at level 1, format "# z") : num_scope.

Open Scope num_scope.

(** ** Data model (the zod schemas [Participant], [BillPay] and the type
    [RelevantInfo]) *)

(** The discriminated union over [incomeType]: the tag carries its fields. *)
Inductive Income : Type :=
  | hourly (hourlyRate hoursPerWeek : num)
  | salary (annualSalary : num).

Record Participant : Type := mkParticipant {
  name : string;
  limited : bool;
  income : Income;
}.

Record BillPay : Type := mkBillPay {
  amount : num;
  maximumLimit : num;
  minimumLimit : num;
  participants : list Participant;
}.

Record RelevantInfo : Type := mkRelevantInfo {
  grossMonthlyIncome : num;
  percentageOfTotal : num;
  amountDue : num;
  adjustedDue : num;
}.

(** The component state that [onValid] writes through its four setters. *)
Record AppState : Type := mkAppState {
  st_activeStep : nat;
  st_completed : gmap nat bool;
  st_results : list RelevantInfo;
  st_totalGross : num;
}.

(** ** Effects of the handler

    A callback of [onValid] may read and update the closure variable
    [deltaBalance], and a property read on [undefined] throws. *)

Inductive js_error : Type := TypeError.

Inductive completion (A : Type) : Type :=
  | Normal (a : A)
  | Throw (e : js_error).
Arguments Normal {A} a.
Arguments Throw {A} e.

Definition Eff (A : Type) : Type := num -> completion (A * num).

Definition ret {A} (a : A) : Eff A := fun s => Normal (a, s).

Definition bind {A B} (m : Eff A) (k : A -> Eff B) : Eff B :=
  fun s => match m s with
           | Normal (a, s') => k a s'
           | Throw e => Throw e
           end.

Definition throw {A} (e : js_error) : Eff A := fun _ => Throw e.

Definition read_deltaBalance : Eff num := fun s => Normal (s, s).

Definition write_deltaBalance (v : num) : Eff unit := fun _ => Normal (tt, v).

Notation "'let*' x ':=' m 'in' k" := (bind m (fun x => k))
  (at level 10, x name, m at level 100, k at level 200).
Notation "m ';;' k" := (bind m (fun _ => k))
  (at level 100, k at level 200, right associativity).

(** [Array.prototype.map] with a callback [(element, index) => ...] that has
    effects: elements are visited in index order. *)
Fixpoint array_map_from {A B} (f : A -> nat -> Eff B) (i : nat) (l : list A)
  : Eff (list B) :=
  match l with
  | [] => ret []
  | x :: l' =>
      let* y := f x i in
      let* ys := array_map_from f (S i) l' in
      ret (y :: ys)
  end.

Definition array_map {A B} (f : A -> nat -> Eff B) (l : list A) : Eff (list B) :=
  array_map_from f 0 l.

(** [arr[index]] on an array of numbers.  Out of range the read gives
    [undefined], which every arithmetic use in [onValid] coerces to [NaN]. *)
Definition at_index (arr : list num) (index : nat) : num :=
  default NaN (arr !! index).

(** [participant.limited] where [participant = data.participants[index]]:
    a property read on [undefined] throws a [TypeError]. *)
Definition get_limited (participant : option Participant) : Eff bool :=
  match participant with
  | Some p => ret (limited p)
  | None => throw TypeError
  end.

(** ** The handler [onValid], statement by statement *)

(** Callback of [participantMonthlyGross] (lines 122-128). *)
Definition monthlyGross (participant : Participant) : num :=
  match income participant with
  | hourly hourlyRate hoursPerWeek => hourlyRate * hoursPerWeek * #4
  | salary annualSalary => annualSalary / #12
  end.

Definition participantMonthlyGross (data : BillPay) : list num :=
  map monthlyGross (participants data).

Definition nonLimitedParticipantCount (data : BillPay) : nat :=
  length (filter (fun participant => negb (limited participant) = true)
                 (participants data)).

Definition totalGross (data : BillPay) : num :=
  fold_left (fun acc income => acc + income) (participantMonthlyGross data) #0.

Definition incomePercentages (data : BillPay) : list num :=
  map (fun income => (income / totalGross data) * #100)
      (participantMonthlyGross data).

Definition nonLimitedDues (data : BillPay) : list num :=
  imap (fun index _income =>
          let percentage := at_index (incomePercentages data) index in
          amount data * (percentage / #100))
       (participantMonthlyGross data).

(** Callback of [limitedDues] (lines 158-175); it updates [deltaBalance]. *)
Definition applyLimits (data : BillPay) (due : num) (index : nat) : Eff num :=
  let participant := participants data !! index in
  let* is_limited := get_limited participant in
  if is_limited then
    let max := or_else (maximumLimit data) #0 in
    let min := or_else (minimumLimit data) #0 in
    if truthy max && (due >? max) then
      let* deltaBalance := read_deltaBalance in
      write_deltaBalance (deltaBalance + (due - max));;
      ret max
    else if truthy min && (due <? min) then
      let* deltaBalance := read_deltaBalance in
      write_deltaBalance (deltaBalance + (due - min));;
      ret min
    else ret due
  else ret due.

Definition limitedDues (data : BillPay) : Eff (list num) :=
  array_map (applyLimits data) (nonLimitedDues data).

(** Callback of [adjustedDues] (lines 177-184); it reads [deltaBalance]. *)
Definition redistribute (data : BillPay) (due : num) (index : nat) : Eff num :=
  let participant := participants data !! index in
  let* is_limited := get_limited participant in
  if negb is_limited then
    let* deltaBalance := read_deltaBalance in
    ret (due + deltaBalance / of_nat (nonLimitedParticipantCount data))
  else ret due.

Definition adjustedDues (data : BillPay) (limitedDues : list num) : Eff (list num) :=
  array_map (redistribute data) limitedDues.

(** The rows handed to [setResults] (lines 187-196). *)
Definition resultRows (data : BillPay) (adjustedDues : list num) : list RelevantInfo :=
  imap (fun index _participant =>
          {| grossMonthlyIncome := at_index (participantMonthlyGross data) index;
             percentageOfTotal := at_index (incomePercentages data) index;
             amountDue := at_index (nonLimitedDues data) index;
             adjustedDue := at_index adjustedDues index |})
       (participants data).

(** The computation of lines 122-184 and 188-195: [let deltaBalance = 0], the
    two passes in order, and the rows. *)
Definition computeResults (data : BillPay) : Eff (list RelevantInfo) :=
  let* limited_dues := limitedDues data in
  let* adjusted_dues := adjustedDues data limited_dues in
  ret (resultRows data adjusted_dues).

Definition onValid (data : BillPay) (st : AppState) : completion AppState :=
  match computeResults data #0 with
  | Normal (rows, _) =>
      Normal {| st_totalGross := totalGross data;
                st_results := rows;
                st_completed := <[0%nat := true]> (<[1%nat := true]> ∅);
                st_activeStep := 2 |}
  | Throw e => Throw e
  end.

(** The value the closure variable [deltaBalance] holds after the clamping
    pass (the "clamping delta"). *)
Definition clampingDelta (data : BillPay) : num :=
  match limitedDues data #0 with
  | Normal (_, deltaBalance) => deltaBalance
  | Throw _ => #0
  end.

(** [arr.reduce((acc, x) => acc + x, 0)]: the sum the handler takes for
    [totalGross], used for every sum over the participants below. *)
Definition sum (arr : list num) : num :=
  fold_left (fun acc x => acc + x) arr #0.

(** ** Validation (the zod schemas, lines 41-73)

    [z.coerce.number()] rejects [NaN]; [.gt(0)] and [.lt(24 * 7)] are the
    bounds.  zod's [number()] lets the infinities through, the specification's
    data model has real numbers: [valid] asks for the schema and for finite
    numbers. *)

Definition Participant_schema (participant : Participant) : bool :=
  match income participant with
  | hourly hourlyRate hoursPerWeek =>
      (hourlyRate >? #0) && (hoursPerWeek >? #0) && (hoursPerWeek <? #(24 * 7))
  | salary annualSalary => annualSalary >? #0
  end.

Definition BillPay_schema (data : BillPay) : bool :=
  (amount data >? #0)
  && negb (isNaN (maximumLimit data))
  && negb (isNaN (minimumLimit data))
  && forallb Participant_schema (participants data).

Definition Participant_finite (participant : Participant) : bool :=
  match income participant with
  | hourly hourlyRate hoursPerWeek => finite hourlyRate && finite hoursPerWeek
  | salary annualSalary => finite annualSalary
  end.

Definition BillPay_finite (data : BillPay) : bool :=
  finite (amount data)
  && finite (maximumLimit data)
  && finite (minimumLimit data)
  && forallb Participant_finite (participants data).

Definition valid (data : BillPay) : Prop :=
  BillPay_schema data = true /\ BillPay_finite data = true.

(** The two degenerate conditions of the specification's error taxonomy. *)
Definition zero_income (data : BillPay) : Prop := totalGross data = #0.

Definition all_limited_with_delta (data : BillPay) : Prop :=
  nonLimitedParticipantCount data = 0%nat /\ clampingDelta data <> #0.

Definition degenerate (data : BillPay) : Prop :=
  zero_income data \/ all_limited_with_delta data.

(** A run of the handler fails when it completes abruptly: a thrown error is
    the only result of [onValid] that is not a table of rows. *)
Definition failed {A} (c : completion A) : bool :=
  match c with
  | Throw _ => true
  | Normal _ => false
  end.

(** ** The clamping rule in the specification's words (section 4.1, step 5)

    A limit is enabled when it is nonzero.  The result is the clamped due and
    the new delta balance. *)

Definition nonzero (x : num) : bool := negb (eqb x #0).

Definition clamp_spec (data : BillPay) (is_limited : bool) (due deltaBalance : num)
  : num * num :=
  if is_limited && nonzero (maximumLimit data) && (due >? maximumLimit data)
  then (maximumLimit data, deltaBalance + (due - maximumLimit data))
  else if is_limited && nonzero (minimumLimit data) && (due <? minimumLimit data)
  then (minimumLimit data, deltaBalance + (due - minimumLimit data))
  else (due, deltaBalance).

(** ** The count of unlimited participants in the specification's words
    (section 4.1, step 6)

    The participants with [limited = false], counted one by one. *)

Fixpoint countOfUnlimitedParticipants (ps : list Participant) : nat :=
  match ps with
  | [] => 0
  | p :: ps' =>
      if limited p then countOfUnlimitedParticipants ps'
      else S (countOfUnlimitedParticipants ps')
  end.

(** ** The rows of [onValid] in closed form

    Each function gives, for one participant, the value the handler stores
    for it; [onValid_rows] below proves that the handler computes exactly
    these. *)

Definition percentage_of (data : BillPay) (participant : Participant) : num :=
  (monthlyGross participant / totalGross data) * #100.

Definition due_of (data : BillPay) (participant : Participant) : num :=
  amount data * (percentage_of data participant / #100).

Definition clamped_of (data : BillPay) (participant : Participant) : num :=
  fst (clamp_spec data (limited participant) (due_of data participant) #0).

Definition adjusted_of (data : BillPay) (participant : Participant) : num :=
  if limited participant
  then clamped_of data participant
  else due_of data participant
       + clampingDelta data / of_nat (nonLimitedParticipantCount data).

Definition row_of (data : BillPay) (participant : Participant) : RelevantInfo :=
  {| grossMonthlyIncome := monthlyGross participant;
     percentageOfTotal := percentage_of data participant;
     amountDue := due_of data participant;
     adjustedDue := adjusted_of data participant |}.

(** The clamping pass as a fold over participants paired with their dues. *)
Fixpoint clamp_pass (data : BillPay) (ps : list Participant) (deltaBalance : num)
  : list num * num :=
  match ps with
  | [] => ([], deltaBalance)
  | p :: ps' =>
      let '(c, d1) := clamp_spec data (limited p) (due_of data p) deltaBalance in
      let '(cs, d2) := clamp_pass data ps' d1 in
      (c :: cs, d2)
  end.

(** Exact value of a finite number ([0] on the others). *)
Definition qval (x : num) : Qc :=
  match x with Fin q => q | _ => 0%Qc end.

Definition Qsum (l : list Qc) : Qc := foldr Qcplus 0%Qc l.

(** ** Concrete inputs *)

Definition initialState : AppState :=
  {| st_activeStep := 0; st_completed := ∅; st_results := []; st_totalGross := #0 |}.

(** Scenario A: two salaried participants, nobody limited. *)
Definition scenarioA : BillPay :=
  {| amount := #1000; maximumLimit := #0; minimumLimit := #0;
     participants :=
       [ {| name := "A"; limited := false; income := salary #30000 |};
         {| name := "B"; limited := false; income := salary #30000 |} ] |}.

(** Scenario B: A is limited and capped at 400, B absorbs the overage. *)
Definition scenarioB : BillPay :=
  {| amount := #1000; maximumLimit := #400; minimumLimit := #0;
     participants :=
       [ {| name := "A"; limited := true; income := salary #30000 |};
         {| name := "B"; limited := false; income := salary #30000 |} ] |}.

(** Scenario C: an hourly participant next to a salaried one, both limits on. *)
Definition scenarioC : BillPay :=
  {| amount := #1000; maximumLimit := #600; minimumLimit := #200;
     participants :=
       [ {| name := "Participant 1"; limited := true; income := salary #30000 |};
         {| name := "Participant 2"; limited := true; income := hourly #15 #40 |} ] |}.

(** Scenario D: everybody is limited and everybody exceeds the maximum. *)
Definition scenarioD : BillPay :=
  {| amount := #1000; maximumLimit := #400; minimumLimit := #0;
     participants :=
       [ {| name := "A"; limited := true; income := salary #30000 |};
         {| name := "B"; limited := true; income := salary #30000 |} ] |}.

(** A form value the schema rejects (salary 0): the household income is 0. *)
Definition zeroIncome : BillPay :=
  {| amount := #1000; maximumLimit := #0; minimumLimit := #0;
     participants :=
       [ {| name := "A"; limited := false; income := salary #0 |};
         {| name := "B"; limited := false; income := salary #0 |} ] |}.

(** Equality of concrete numbers, rows and tables is decided by [eqb]. *)
Definition row_eqb (r1 r2 : RelevantInfo) : bool :=
  eqb (grossMonthlyIncome r1) (grossMonthlyIncome r2)
  && eqb (percentageOfTotal r1) (percentageOfTotal r2)
  && eqb (amountDue r1) (amountDue r2)
  && eqb (adjustedDue r1) (adjustedDue r2).

Fixpoint rows_eqb (l1 l2 : list RelevantInfo) : bool :=
  match l1, l2 with
  | [], [] => true
  | r1 :: l1', r2 :: l2' => row_eqb r1 r2 && rows_eqb l1' l2'
  | _, _ => false
  end.

(** One limited participant capped at 200 next to two unlimited ones: the
    number of unlimited participants (2) differs from the number of limited
    ones (1) and from the length of the list (3). *)
Definition twoUnlimited : BillPay :=
  {| amount := #900; maximumLimit := #200; minimumLimit := #0;
     participants :=
       [ {| name := "A"; limited := true; income := salary #30000 |};
         {| name := "B"; limited := false; income := salary #30000 |};
         {| name := "C"; limited := false; income := salary #30000 |} ] |}.

(** A band entered the wrong way round: the maximum is below the minimum. *)
Definition invertedBand : BillPay :=
  {| amount := #1000; maximumLimit := #200; minimumLimit := #600;
     participants :=
       [ {| name := "A"; limited := true; income := salary #30000 |};
         {| name := "B"; limited := false; income := salary #30000 |} ] |}.

(** ** The wizard around the handler (the component [App], lines 86-497)

    The form value lives in react-hook-form, the rest in [useState].  The
    resolver [zodResolver(BillPay)] hands [handleSubmit] either the parsed
    form value or an errors object with one key per failing field;
    [handleSubmit(onValid, onInvalid)] calls [onValid] in the first case and
    [onInvalid] in the second. *)

Record FieldErrors : Type := mkFieldErrors {
  err_amount : bool;
  err_maximumLimit : bool;
  err_minimumLimit : bool;
  err_participants : bool;
}.

Definition resolverErrors (data : BillPay) : FieldErrors :=
  {| err_amount := negb (amount data >? #0);
     err_maximumLimit := isNaN (maximumLimit data);
     err_minimumLimit := isNaN (minimumLimit data);
     err_participants := negb (forallb Participant_schema (participants data)) |}.

(** [onInvalid] (lines 202-205). *)
Definition onInvalid (errors : FieldErrors) (st : AppState) : AppState :=
  if err_amount errors || err_maximumLimit errors || err_minimumLimit errors
  then {| st_activeStep := 0;
          st_completed := st_completed st;
          st_results := st_results st;
          st_totalGross := st_totalGross st |}
  else st.

Definition handleSubmit (data : BillPay) (st : AppState) : completion AppState :=
  if BillPay_schema data
  then onValid data st
  else Normal (onInvalid (resolverErrors data) st).

Definition STEPS : list string := ["Settings"; "Participants"; "Result"].

(** [completed[index]]: a missing key reads [undefined], which is falsy. *)
Definition isCompleted (completed : gmap nat bool) (index : nat) : bool :=
  default false (completed !! index).

(** The [disabled] property of the step button at [index] (line 215). *)
Definition stepDisabled (completed : gmap nat bool) (index : nat) : bool :=
  (index =? 2)%nat
  && (negb (isCompleted completed 0) || negb (isCompleted completed 1)).

(** [Array.prototype.filter] with a callback [(element, index) => ...]. *)
Fixpoint array_filter_from {A} (f : A -> nat -> bool) (i : nat) (l : list A)
  : list A :=
  match l with
  | [] => []
  | x :: l' =>
      if f x i then x :: array_filter_from f (S i) l'
      else array_filter_from f (S i) l'
  end.

Definition array_filter {A} (f : A -> nat -> bool) (l : list A) : list A :=
  array_filter_from f 0 l.

(** The "Delete Participant" button of the participant at [index]
    (lines 403-409). *)
Definition deleteParticipant (index : nat) (ps : list Participant)
  : list Participant :=
  array_filter (fun _ i => negb (i =? index)%nat) ps.

(** The "Add Participant" button (lines 420-429): [setValue] at the path
    [participants.<length>] puts the new participant behind the last one. *)
Definition newParticipant (ps : list Participant) : Participant :=
  {| name := "Participant " +:+ pretty (length ps + 1)%nat;
     limited := false;
     income := salary #0 |}.

Definition addParticipant (ps : list Participant) : list Participant :=
  ps ++ [newParticipant ps].

Definition with_participants (ps : list Participant) (data : BillPay) : BillPay :=
  {| amount := amount data;
     maximumLimit := maximumLimit data;
     minimumLimit := minimumLimit data;
     participants := ps |}.

Definition with_activeStep (step : nat) (st : AppState) : AppState :=
  {| st_activeStep := step;
     st_completed := st_completed st;
     st_results := st_results st;
     st_totalGross := st_totalGross st |}.

Record UI : Type := mkUI {
  ui_state : AppState;
  ui_form : BillPay;
}.

(** What the user can do.  [FieldChange] is any edit through a field's
    [Controller]: it replaces the form value and nothing else. *)
Inductive Event : Type :=
  | StepClick (index : nat)
  | NextClick
  | FieldChange (data : BillPay)
  | AddParticipantClick
  | DeleteParticipantClick (index : nat)
  | Submit.

(** One event.  A step button exists for each entry of [STEPS] and does
    nothing while it is disabled; a handler that throws leaves the state as
    it was. *)
Definition dispatch (u : UI) (e : Event) : UI :=
  match e with
  | StepClick index =>
      if (index <? length STEPS)%nat && negb (stepDisabled (st_completed (ui_state u)) index)
      then {| ui_state := with_activeStep index (ui_state u); ui_form := ui_form u |}
      else u
  | NextClick =>
      {| ui_state := with_activeStep 1 (ui_state u); ui_form := ui_form u |}
  | FieldChange data => {| ui_state := ui_state u; ui_form := data |}
  | AddParticipantClick =>
      {| ui_state := ui_state u;
         ui_form := with_participants (addParticipant (participants (ui_form u)))
                                      (ui_form u) |}
  | DeleteParticipantClick index =>
      {| ui_state := ui_state u;
         ui_form := with_participants
                      (deleteParticipant index (participants (ui_form u)))
                      (ui_form u) |}
  | Submit =>
      match handleSubmit (ui_form u) (ui_state u) with
      | Normal st' => {| ui_state := st'; ui_form := ui_form u |}
      | Throw _ => u
      end
  end.

Definition run (events : list Event) (u : UI) : UI := fold_left dispatch events u.

(** The form's [defaultValues] (lines 97-116) and the initial [useState]s. *)
Definition defaultValues : BillPay :=
  {| amount := #0; maximumLimit := #600; minimumLimit := #200;
     participants :=
       [ {| name := "Participant 1"; limited := false; income := salary #30000 |};
         {| name := "Participant 2"; limited := false; income := hourly #15 #40 |} ] |}.

Definition initialUI : UI :=
  {| ui_state := initialState; ui_form := defaultValues |}.

(** Every submit among [events], played from [u], finds a form value that
    the schema rejects: [before] are the events up to that submit. *)
Definition every_submit_rejected (u : UI) (events : list Event) : Prop :=
  forall before after,
    events = before ++ Submit :: after ->
    BillPay_schema (ui_form (run before u)) = false.

(** What the step buttons keep: the active step is one of the three, and the
    Result step is active only while its button is enabled. *)
Definition step_invariant (st : AppState) : Prop :=
  (st_activeStep st <= 2)%nat
  /\ (st_activeStep st = 2%nat -> stepDisabled (st_completed st) 2 = false).

(** ** Display of amounts ([formatDollarAmount], lines 496-497)

    [amount.toFixed(2)] follows Number.prototype.toFixed on the exact value:
    the non-finite values print by name, a negative value prints as ["-"]
    and its magnitude, and a magnitude below [10^21] prints the integer [n]
    nearest to [100 * x] (the larger one on a tie) with a point before its
    last two digits.  From [10^21] on the result is the exponent form of
    Number::toString, whose digits depend on the binary64 representation:
    there [toFixed2] gives [None]. *)

Definition is_digit (c : ascii) : bool :=
  match Ascii.is_nat c with Some _ => true | None => false end.

(** The class [\w]: letters, digits and the underscore. *)
Definition is_word (c : ascii) : bool :=
  let n := N_of_ascii c in
  ((48 <=? n) && (n <=? 57) || (65 <=? n) && (n <=? 90)
   || (97 <=? n) && (n <=? 122) || (n =? 95))%N.

Fixpoint zeros (k : nat) : string :=
  match k with
  | O => ""
  | S k' => String "0"%char (zeros k')
  end.

(** The integer [n] for which [n / 100 - x] is closest to zero, the larger
    one when there are two: [floor (100 x + 1/2)]. *)
Definition nearest_hundredth (x : Qc) : Z :=
  Qfloor (x * Q2Qc (inject_Z 100) + Q2Qc (Qmake 1 2))%Qc.

(** Fewer than three digits are filled up with zeros in front. *)
Definition pad_to_three (m : string) : string :=
  let k := String.length m in
  if (k <=? 2)%nat then zeros (3 - k) +:+ m else m.

(** The first [k - 2] characters, a point, the last two. *)
Definition point_before_last_two (m : string) : string :=
  let k := String.length m in
  String.substring 0 (k - 2) m +:+ "." +:+ String.substring (k - 2) 2 m.

Definition toFixed2 (x : num) : option string :=
  match x with
  | NaN => Some "NaN"
  | PInf => Some "Infinity"
  | NInf => Some "-Infinity"
  | Fin q =>
      let s := if Qcltb q 0 then "-" else "" in
      let x := if Qcltb q 0 then (- q)%Qc else q in
      if Qcltb x (Q2Qc (inject_Z (10 ^ 21)))
      then
        let n := nearest_hundredth x in
        let m := pretty (Z.to_N n) in
        Some (s +:+ point_before_last_two (pad_to_three m))
      else None
  end.

(** The pattern [/\B(?=(\d{3})+(?!\d))/g].  It matches the empty string at a
    position, so [replace] tests every position of the text once, from the
    first to the one behind the last character, and puts a comma at each
    position that matches. *)

Definition starts_with_digit (s : string) : bool :=
  match s with
  | String c _ => is_digit c
  | EmptyString => false
  end.

(** [(\d{3})+(?!\d)] at the start of [s]: one group of three digits, then
    either no digit follows or the groups go on. *)
Fixpoint digit_groups (s : string) : bool :=
  match s with
  | String a (String b (String c rest)) =>
      is_digit a && is_digit b && is_digit c
      && (negb (starts_with_digit rest) || digit_groups rest)
  | _ => false
  end.

(** [\B] between the character before the position ([None] at the start)
    and the text from the position on: both sides are word characters or
    neither is. *)
Definition not_word_boundary (prev : option ascii) (s : string) : bool :=
  Bool.eqb (from_option is_word false prev)
           (match s with String c _ => is_word c | EmptyString => false end).

Definition comma_here (prev : option ascii) (s : string) : bool :=
  not_word_boundary prev s && digit_groups s.

Fixpoint insert_commas_from (prev : option ascii) (s : string) : string :=
  let rest :=
    match s with
    | EmptyString => EmptyString
    | String c s' => String c (insert_commas_from (Some c) s')
    end in
  if comma_here prev s then String ","%char rest else rest.

Definition insert_commas (s : string) : string := insert_commas_from None s.

Definition formatDollarAmount (amount : num) : option string :=
  match toFixed2 amount with
  | Some fixed => Some ("$" +:+ insert_commas fixed)
  | None => None
  end.

(** *** Reading a formatted amount

    The thousands grouping of a digit string written out directly: a comma
    after a digit when the number of digits still to come is a positive
    multiple of three. *)

Fixpoint group_thousands (digits : string) : string :=
  match digits with
  | EmptyString => EmptyString
  | String c rest =>
      let k := String.length rest in
      String c (if (0 <? k)%nat && (k mod 3 =? 0)%nat
                then String ","%char (group_thousands rest)
                else group_thousands rest)
  end.

Fixpoint all_digits (s : string) : bool :=
  match s with
  | EmptyString => true
  | String c s' => is_digit c && all_digits s'
  end.

(** ** The result table (lines 462-483)

    One table row per entry of [results]; the name cell reads the form value
    at the row's index ([getValues] gives [undefined] where the form has no
    such participant). *)

Record TableRow : Type := mkTableRow {
  cell_name : option string;
  cell_grossIncome : option string;
  cell_percentage : option string;
  cell_unadjustedDue : option string;
  cell_adjustedDue : option string;
}.

Definition percentText (x : num) : option string :=
  match toFixed2 x with
  | Some fixed => Some (fixed +:+ "%")
  | None => None
  end.

Definition tableRows (u : UI) : list TableRow :=
  imap (fun index result =>
          {| cell_name := name <$> (participants (ui_form u) !! index);
             cell_grossIncome := formatDollarAmount (grossMonthlyIncome result);
             cell_percentage := percentText (percentageOfTotal result);
             cell_unadjustedDue := formatDollarAmount (amountDue result);
             cell_adjustedDue := formatDollarAmount (adjustedDue result) |})
       (st_results (ui_state u)).

(** A number with thousands and decimals, to display. *)
Definition sampleAmount : Qc := (Q2Qc (Qmake 1234567891 1000))%Qc.

(** ** The handler over binary64

    The statements of [onValid] (lines 122-196) once more, with the numbers
    of the machine: [float] is the binary64 format of IEEE 754, and [+], [-],
    [*], [/] round to the nearest value (ties to even), overflow to an
    infinity and underflow to a zero, as ECMAScript's Number type does.  The
    definitions are the ones above with these operators in place of the exact
    ones. *)

Module Binary64.

Import PrimFloat.
Local Open Scope float_scope.

Local Notation "x >? y" := (PrimFloat.ltb y x) (at level 70, no associativity)
  : float_scope.

Inductive Income : Type :=
  | hourly (hourlyRate hoursPerWeek : float)
  | salary (annualSalary : float).

Record Participant : Type := mkParticipant {
  name : string;
  limited : bool;
  income : Income;
}.

Record BillPay : Type := mkBillPay {
  amount : float;
  maximumLimit : float;
  minimumLimit : float;
  participants : list Participant;
}.

Record RelevantInfo : Type := mkRelevantInfo {
  grossMonthlyIncome : float;
  percentageOfTotal : float;
  amountDue : float;
  adjustedDue : float;
}.

(** ToBoolean on a number: [+0], [-0] and [NaN] are falsy. *)
Definition truthy (x : float) : bool := negb (x =? 0) && negb (is_nan x).

(** [x || y] on numbers. *)
Definition or_else (x y : float) : float := if truthy x then x else y.

(** The [length] of an array, as a number. *)
Definition of_nat (n : nat) : float := of_uint63 (Uint63.of_Z (Z.of_nat n)).

Definition Eff (A : Type) : Type := float -> completion (A * float).

Definition ret {A} (a : A) : Eff A := fun s => Normal (a, s).

Definition bind {A B} (m : Eff A) (k : A -> Eff B) : Eff B :=
  fun s => match m s with
           | Normal (a, s') => k a s'
           | Throw e => Throw e
           end.

Definition throw {A} (e : js_error) : Eff A := fun _ => Throw e.

Definition read_deltaBalance : Eff float := fun s => Normal (s, s).

Definition write_deltaBalance (v : float) : Eff unit := fun _ => Normal (tt, v).

Declare Scope float_eff_scope.
Notation "'let*' x ':=' m 'in' k" := (bind m (fun x => k))
  (at level 10, x name, m at level 100, k at level 200) : float_eff_scope.
Notation "m ';;' k" := (bind m (fun _ => k))
  (at level 100, k at level 200, right associativity) : float_eff_scope.
Local Open Scope float_eff_scope.

Fixpoint array_map_from {A B} (f : A -> nat -> Eff B) (i : nat) (l : list A)
  : Eff (list B) :=
  match l with
  | [] => ret []
  | x :: l' =>
      let* y := f x i in
      let* ys := array_map_from f (S i) l' in
      ret (y :: ys)
  end.

Definition array_map {A B} (f : A -> nat -> Eff B) (l : list A) : Eff (list B) :=
  array_map_from f 0 l.

Definition at_index (arr : list float) (index : nat) : float :=
  default nan (arr !! index).

Definition get_limited (participant : option Participant) : Eff bool :=
  match participant with
  | Some p => ret (limited p)
  | None => throw TypeError
  end.

(** Callback of [participantMonthlyGross] (lines 122-128). *)
Definition monthlyGross (participant : Participant) : float :=
  match income participant with
  | hourly hourlyRate hoursPerWeek => hourlyRate * hoursPerWeek * 4
  | salary annualSalary => annualSalary / 12
  end.

Definition participantMonthlyGross (data : BillPay) : list float :=
  map monthlyGross (participants data).

Definition nonLimitedParticipantCount (data : BillPay) : nat :=
  length (filter (fun participant => negb (limited participant) = true)
                 (participants data)).

Definition totalGross (data : BillPay) : float :=
  fold_left (fun acc income => acc + income) (participantMonthlyGross data) 0.

Definition incomePercentages (data : BillPay) : list float :=
  map (fun income => (income / totalGross data) * 100)
      (participantMonthlyGross data).

Definition nonLimitedDues (data : BillPay) : list float :=
  imap (fun index _income =>
          let percentage := at_index (incomePercentages data) index in
          amount data * (percentage / 100))
       (participantMonthlyGross data).

(** Callback of [limitedDues] (lines 158-175). *)
Definition applyLimits (data : BillPay) (due : float) (index : nat) : Eff float :=
  let participant := participants data !! index in
  let* is_limited := get_limited participant in
  if is_limited then
    let max := or_else (maximumLimit data) 0 in
    let min := or_else (minimumLimit data) 0 in
    if truthy max && (due >? max) then
      let* deltaBalance := read_deltaBalance in
      write_deltaBalance (deltaBalance + (due - max));;
      ret max
    else if truthy min && (due <? min) then
      let* deltaBalance := read_deltaBalance in
      write_deltaBalance (deltaBalance + (due - min));;
      ret min
    else ret due
  else ret due.

Definition limitedDues (data : BillPay) : Eff (list float) :=
  array_map (applyLimits data) (nonLimitedDues data).

(** Callback of [adjustedDues] (lines 177-184). *)
Definition redistribute (data : BillPay) (due : float) (index : nat) : Eff float :=
  let participant := participants data !! index in
  let* is_limited := get_limited participant in
  if negb is_limited then
    let* deltaBalance := read_deltaBalance in
    ret (due + deltaBalance / of_nat (nonLimitedParticipantCount data))
  else ret due.

Definition adjustedDues (data : BillPay) (limitedDues : list float)
  : Eff (list float) :=
  array_map (redistribute data) limitedDues.

Definition resultRows (data : BillPay) (adjustedDues : list float)
  : list RelevantInfo :=
  imap (fun index _participant =>
          {| grossMonthlyIncome := at_index (participantMonthlyGross data) index;
             percentageOfTotal := at_index (incomePercentages data) index;
             amountDue := at_index (nonLimitedDues data) index;
             adjustedDue := at_index adjustedDues index |})
       (participants data).

Definition computeResults (data : BillPay) : Eff (list RelevantInfo) :=
  let* limited_dues := limitedDues data in
  let* adjusted_dues := adjustedDues data limited_dues in
  ret (resultRows data adjusted_dues).

(** The table and the household income that [onValid] hands to [setResults]
    and [setTotalGross]; [deltaBalance] starts at [0] (line 155). *)
Definition onValid (data : BillPay) : completion (list RelevantInfo * float) :=
  match computeResults data 0 with
  | Normal (rows, _) => Normal (rows, totalGross data)
  | Throw e => Throw e
  end.

(** [arr.reduce((acc, x) => acc + x, 0)]. *)
Definition sum (arr : list float) : float :=
  fold_left (fun acc x => acc + x) arr 0.

(** The rational number a finite binary64 value stands for ([0] on the
    others), and the sum of such numbers taken without rounding. *)
Definition exact_value (x : float) : Q :=
  match Prim2SF x with
  | S754_finite s m e =>
      ((if s then inject_Z (-1) else inject_Z 1)
       * inject_Z (Z.pos m) * Qpower (Qmake 2 1) e)%Q
  | S754_zero _ | S754_infinity _ | S754_nan => inject_Z 0
  end.

Definition exact_sum (arr : list float) : Q :=
  fold_right (fun x acc => (exact_value x + acc)%Q) (inject_Z 0) arr.

(** The zod schemas (lines 41-73). *)
Definition Participant_schema (participant : Participant) : bool :=
  match income participant with
  | hourly hourlyRate hoursPerWeek =>
      (hourlyRate >? 0) && (hoursPerWeek >? 0) && (hoursPerWeek <? 24 * 7)
  | salary annualSalary => annualSalary >? 0
  end.

Definition BillPay_schema (data : BillPay) : bool :=
  (amount data >? 0)
  && negb (is_nan (maximumLimit data))
  && negb (is_nan (minimumLimit data))
  && forallb Participant_schema (participants data).

(** Every number of the form value is finite. *)
Definition Participant_finite (participant : Participant) : bool :=
  match income participant with
  | hourly hourlyRate hoursPerWeek => is_finite hourlyRate && is_finite hoursPerWeek
  | salary annualSalary => is_finite annualSalary
  end.

Definition BillPay_finite (data : BillPay) : bool :=
  is_finite (amount data)
  && is_finite (maximumLimit data)
  && is_finite (minimumLimit data)
  && forallb Participant_finite (participants data).

(** *** Concrete inputs *)

(** Scenario B in binary64. *)
Definition scenarioB : BillPay :=
  {| amount := 1000; maximumLimit := 400; minimumLimit := 0;
     participants :=
       [ {| name := "A"; limited := true; income := salary 30000 |};
         {| name := "B"; limited := false; income := salary 30000 |} ] |}.

(** A bill of 100 shared by three equal salaries, nobody limited. *)
Definition threeEqualSalaries : BillPay :=
  {| amount := 100; maximumLimit := 0; minimumLimit := 0;
     participants :=
       [ {| name := "A"; limited := false; income := salary 12000 |};
         {| name := "B"; limited := false; income := salary 12000 |};
         {| name := "C"; limited := false; income := salary 12000 |} ] |}.

(** The smallest positive number, [2^-1074] (about [5e-324]), as a salary. *)
Definition tinySalary : BillPay :=
  {| amount := 1000; maximumLimit := 0; minimumLimit := 0;
     participants :=
       [ {| name := "A"; limited := false; income := salary 0x1p-1074 |} ] |}.

(** A limited participant whose hourly pay, about [1e308] an hour for 100
    hours a week, overflows the monthly income; the band is 200 to 600. *)
Definition hugeHourly : BillPay :=
  {| amount := 1000; maximumLimit := 600; minimumLimit := 200;
     participants :=
       [ {| name := "A"; limited := true;
            income := hourly 0x1.1ccf385ebc8ap+1023 100 |} ] |}.

(** Thirteen participants with the largest finite number,
    [Number.MAX_VALUE] (about [1.8e308]), as annual salary: the sum of their
    monthly incomes overflows. *)
Definition thirteenMaxSalaries : BillPay :=
  {| amount := 1000; maximumLimit := 0; minimumLimit := 0;
     participants :=
       replicate 13
         {| name := "P"; limited := false;
            income := salary 0x1.fffffffffffffp+1023 |} |}.

End Binary64.

(** ** The sign of a binary64 value

    Read off the IEEE representation [Prim2SF x]: [sign_clear] holds of [+0],
    of the positive finite numbers and of [+Infinity]; [above_zero] of the
    last two only. *)

Definition sign_clear (x : spec_float) : bool :=
  match x with
  | S754_nan => false
  | S754_zero s | S754_infinity s | S754_finite s _ _ => negb s
  end.

Definition above_zero (x : spec_float) : bool :=
  match x with
  | S754_infinity s | S754_finite s _ _ => negb s
  | S754_zero _ | S754_nan => false
  end.

(** * Proofs *)

(** ** Facts about [num] *)

Section NumFacts.

Lemma Qcltb_lt (a b : Qc) : Qcltb a b = true <-> (a < b)%Qc.
Proof.
  unfold Qcltb. rewrite Qclt_alt. destruct (a ?= b)%Qc; split; congruence.
Qed.

Lemma Qceqb_eq (a b : Qc) : Qceqb a b = true <-> a = b.
Proof.
  unfold Qceqb. rewrite Qceq_alt. destruct (a ?= b)%Qc; split; congruence.
Qed.

Lemma Qceqb_neq (a b : Qc) : Qceqb a b = false <-> a <> b.
Proof.
  rewrite <- Qceqb_eq. destruct (Qceqb a b); split; congruence.
Qed.

Lemma Qceqb_refl (a : Qc) : Qceqb a a = true.
Proof. now apply Qceqb_eq. Qed.

Lemma eqb_eq (x y : num) : eqb x y = true <-> x = y.
Proof.
  destruct x, y; simpl; try (split; congruence).
  rewrite Qceqb_eq. split; congruence.
Qed.

Lemma add_0_r (x : num) : x + #0 = x.
Proof.
  change #0 with (Fin 0%Qc).
  destruct x; simpl; try reflexivity. f_equal. ring.
Qed.

Lemma truthy_nonzero_gt (m due : num) :
  truthy m && (due >? m) = nonzero m && (due >? m).
Proof. destruct m, due; reflexivity. Qed.

Lemma truthy_nonzero_lt (m due : num) :
  truthy m && (due <? m) = nonzero m && (due <? m).
Proof. destruct m, due; reflexivity. Qed.

Lemma or_else_zero_truthy (m : num) : truthy (or_else m #0) = truthy m.
Proof.
  unfold or_else. destruct (truthy m) eqn:E; [exact E | reflexivity].
Qed.

Lemma or_else_zero_guard (m : num) (b : bool) :
  truthy m && b = true -> or_else m #0 = m.
Proof.
  unfold or_else. destruct (truthy m); [reflexivity | discriminate].
Qed.

Lemma of_nat_S (n : nat) : of_nat (S n) = of_nat n + #1.
Proof.
  unfold of_nat, of_Z. simpl add. f_equal.
  apply Qc_is_canon. simpl.
  rewrite !Qred_correct. rewrite Nat2Z.inj_succ. unfold Z.succ.
  rewrite inject_Z_plus. reflexivity.
Qed.

Lemma of_nat_nonzero (n : nat) :
  n <> 0%nat -> Q2Qc (inject_Z (Z.of_nat n)) <> 0%Qc.
Proof.
  intros Hn Heq. apply (f_equal this) in Heq. simpl in Heq.
  assert (Hq : (inject_Z (Z.of_nat n) == 0)%Q).
  { rewrite <- (Qred_correct (inject_Z (Z.of_nat n))). rewrite Heq. reflexivity. }
  unfold Qeq in Hq. simpl in Hq. lia.
Qed.

End NumFacts.

(** ** The order of [num]

    What the comparisons of the clamping rule rely on: two numbers that are
    not [NaN] are comparable.  These facts involve no arithmetic. *)

Section OrderFacts.

Lemma lt_false_le (x y : num) :
  isNaN x = false -> isNaN y = false -> (x <? y) = false -> (y <=? x) = true.
Proof.
  destruct x as [a| | |], y as [b| | |]; cbn [isNaN lt le];
    intros Hx Hy H; try discriminate; try reflexivity.
  rewrite H. reflexivity.
Qed.

Lemma le_refl (x : num) : isNaN x = false -> (x <=? x) = true.
Proof.
  destruct x as [a| | |]; cbn [isNaN le]; intros H; try discriminate;
    try reflexivity.
  destruct (Qcltb a a) eqn:E; [|reflexivity].
  apply Qcltb_lt in E. exact (False_ind _ (Qclt_not_eq _ _ E eq_refl)).
Qed.

Lemma le_not_NaN (x y : num) :
  (x <=? y) = true -> isNaN x = false /\ isNaN y = false.
Proof.
  destruct x, y; cbn [le isNaN]; intros H; try discriminate; split; reflexivity.
Qed.

Lemma lt_not_NaN (x y : num) :
  (x <? y) = true -> isNaN x = false /\ isNaN y = false.
Proof.
  destruct x, y; cbn [lt isNaN]; intros H; try discriminate; split; reflexivity.
Qed.

Lemma le_lt_trans (x y z : num) :
  (x <=? y) = true -> (y <? z) = true -> (x <? z) = true.
Proof.
  destruct x as [a| | |], y as [b| | |], z as [c| | |]; cbn [le lt];
    intros H1 H2; try discriminate; try reflexivity.
  apply Qcltb_lt. apply Qcltb_lt in H2.
  apply Qcle_lt_trans with b; [|exact H2].
  apply Qcnot_lt_le. intros Hlt. apply Qcltb_lt in Hlt. rewrite Hlt in H1.
  discriminate H1.
Qed.

Lemma lt_eqb_false (x y : num) :
  (x <? y) = true -> eqb x y = false /\ eqb y x = false.
Proof.
  destruct x as [a| | |], y as [b| | |]; cbn [lt eqb];
    intros H; try discriminate; try (split; reflexivity).
  apply Qcltb_lt in H.
  split; apply Qceqb_neq; [|apply not_eq_sym]; apply Qclt_not_eq, H.
Qed.

End OrderFacts.

(** ** The handler computes the closed-form rows *)

Lemma drop_cons_inv {A} (l : list A) (i : nat) (x : A) (xs : list A) :
  drop i l = x :: xs -> l !! i = Some x /\ drop (S i) l = xs.
Proof.
  intros Hdrop. split.
  - rewrite <- (Nat.add_0_r i), <- lookup_drop, Hdrop. reflexivity.
  - replace (S i) with (i + 1)%nat by lia.
    rewrite <- drop_drop, Hdrop. reflexivity.
Qed.

Section Structure.

Variable data : BillPay.

Lemma participantMonthlyGross_lookup (i : nat) (p : Participant) :
  participants data !! i = Some p ->
  participantMonthlyGross data !! i = Some (monthlyGross p).
Proof.
  intros Hp. unfold participantMonthlyGross.
  rewrite list_lookup_fmap, Hp. reflexivity.
Qed.

Lemma incomePercentages_lookup (i : nat) (p : Participant) :
  participants data !! i = Some p ->
  incomePercentages data !! i = Some (percentage_of data p).
Proof.
  intros Hp. unfold incomePercentages.
  rewrite list_lookup_fmap, (participantMonthlyGross_lookup i p Hp).
  reflexivity.
Qed.

Lemma nonLimitedDues_map :
  nonLimitedDues data = map (due_of data) (participants data).
Proof.
  apply list_eq. intros i. unfold nonLimitedDues.
  rewrite list_lookup_imap, list_lookup_fmap.
  unfold participantMonthlyGross. rewrite list_lookup_fmap.
  destruct (participants data !! i) as [p|] eqn:Hp; simpl; [|reflexivity].
  unfold at_index. rewrite (incomePercentages_lookup i p Hp). reflexivity.
Qed.

Lemma applyLimits_clamp_spec (i : nat) (p : Participant) (due deltaBalance : num) :
  participants data !! i = Some p ->
  applyLimits data due i deltaBalance
  = Normal (clamp_spec data (limited p) due deltaBalance).
Proof.
  intros Hp. unfold applyLimits, clamp_spec. rewrite Hp.
  unfold bind, get_limited, ret. destruct (limited p); simpl; [|reflexivity].
  rewrite !or_else_zero_truthy.
  rewrite <- truthy_nonzero_gt, <- truthy_nonzero_lt.
  destruct (truthy (maximumLimit data) && (due >? or_else (maximumLimit data) #0))
    eqn:Emax.
  - assert (Hm : or_else (maximumLimit data) #0 = maximumLimit data)
      by (eapply or_else_zero_guard; exact Emax).
    rewrite Hm in Emax |- *. rewrite Emax. reflexivity.
  - assert (Emax' : truthy (maximumLimit data) && (due >? maximumLimit data) = false).
    { destruct (truthy (maximumLimit data)) eqn:Et; [|reflexivity].
      unfold or_else in Emax. rewrite Et in Emax. exact Emax. }
    rewrite Emax'.
    destruct (truthy (minimumLimit data) && (due <? or_else (minimumLimit data) #0))
      eqn:Emin.
    + assert (Hm : or_else (minimumLimit data) #0 = minimumLimit data)
        by (eapply or_else_zero_guard; exact Emin).
      rewrite Hm in Emin |- *. rewrite Emin. reflexivity.
    + assert (Emin' : truthy (minimumLimit data) && (due <? minimumLimit data) = false).
      { destruct (truthy (minimumLimit data)) eqn:Et; [|reflexivity].
        unfold or_else in Emin. rewrite Et in Emin. exact Emin. }
      rewrite Emin'. reflexivity.
Qed.

Lemma clamp_spec_fst (b : bool) (due d1 d2 : num) :
  fst (clamp_spec data b due d1) = fst (clamp_spec data b due d2).
Proof.
  unfold clamp_spec.
  repeat match goal with |- context [if ?c then _ else _] => destruct c end;
    reflexivity.
Qed.

Lemma clamp_spec_unlimited (due deltaBalance : num) :
  clamp_spec data false due deltaBalance = (due, deltaBalance).
Proof. reflexivity. Qed.

Lemma array_map_from_applyLimits (ps : list Participant) :
  forall (i : nat) (deltaBalance : num),
    drop i (participants data) = ps ->
    array_map_from (applyLimits data) i (map (due_of data) ps) deltaBalance
    = Normal (clamp_pass data ps deltaBalance).
Proof.
  induction ps as [|p ps IH]; intros i deltaBalance Hdrop; [reflexivity|].
  destruct (drop_cons_inv _ _ _ _ Hdrop) as [Hp Hdrop'].
  simpl. unfold bind at 1. rewrite (applyLimits_clamp_spec i p _ _ Hp).
  destruct (clamp_spec data (limited p) (due_of data p) deltaBalance) as [c d1].
  unfold bind at 1. rewrite (IH (S i) d1 Hdrop').
  destruct (clamp_pass data ps d1) as [cs d2]. reflexivity.
Qed.

Lemma limitedDues_clamp_pass (deltaBalance : num) :
  limitedDues data deltaBalance
  = Normal (clamp_pass data (participants data) deltaBalance).
Proof.
  unfold limitedDues, array_map. rewrite nonLimitedDues_map.
  apply array_map_from_applyLimits. reflexivity.
Qed.

Lemma clamp_pass_fst (ps : list Participant) :
  forall deltaBalance,
    fst (clamp_pass data ps deltaBalance) = map (clamped_of data) ps.
Proof.
  induction ps as [|p ps IH]; intros deltaBalance; [reflexivity|].
  simpl.
  pose proof (clamp_spec_fst (limited p) (due_of data p) deltaBalance #0) as Hc.
  destruct (clamp_spec data (limited p) (due_of data p) deltaBalance) as [c d1].
  specialize (IH d1). destruct (clamp_pass data ps d1) as [cs d2].
  simpl in *. unfold clamped_of. rewrite <- Hc, IH. reflexivity.
Qed.

Lemma clampingDelta_clamp_pass :
  clampingDelta data = snd (clamp_pass data (participants data) #0).
Proof.
  unfold clampingDelta. rewrite limitedDues_clamp_pass.
  destruct (clamp_pass data (participants data) #0). reflexivity.
Qed.

Lemma redistribute_eq (i : nat) (p : Participant) (due deltaBalance : num) :
  participants data !! i = Some p ->
  redistribute data due i deltaBalance
  = Normal (if limited p then due
            else due + deltaBalance / of_nat (nonLimitedParticipantCount data),
            deltaBalance).
Proof.
  intros Hp. unfold redistribute. rewrite Hp.
  unfold bind, get_limited, ret. destruct (limited p); reflexivity.
Qed.

Lemma array_map_from_redistribute (ps : list Participant) (deltaBalance : num) :
  forall (i : nat),
    drop i (participants data) = ps ->
    array_map_from (redistribute data) i (map (clamped_of data) ps) deltaBalance
    = Normal
        (map (fun p =>
                if limited p then clamped_of data p
                else clamped_of data p
                     + deltaBalance / of_nat (nonLimitedParticipantCount data)) ps,
         deltaBalance).
Proof.
  induction ps as [|p ps IH]; intros i Hdrop; [reflexivity|].
  destruct (drop_cons_inv _ _ _ _ Hdrop) as [Hp Hdrop'].
  simpl. unfold bind at 1. rewrite (redistribute_eq i p _ _ Hp).
  unfold bind at 1. rewrite (IH (S i) Hdrop'). reflexivity.
Qed.

Lemma clamped_of_unlimited (p : Participant) :
  limited p = false -> clamped_of data p = due_of data p.
Proof. intros Hl. unfold clamped_of. rewrite Hl. reflexivity. Qed.

Lemma computeResults_rows :
  computeResults data #0
  = Normal (map (row_of data) (participants data), clampingDelta data).
Proof.
  unfold computeResults. unfold bind at 1.
  rewrite limitedDues_clamp_pass.
  pose proof (clamp_pass_fst (participants data) #0) as Hfst.
  pose proof clampingDelta_clamp_pass as Hsnd.
  destruct (clamp_pass data (participants data) #0) as [cs d]. simpl in Hfst, Hsnd.
  subst cs d. unfold bind at 1, adjustedDues, array_map.
  rewrite (array_map_from_redistribute (participants data) _ 0 eq_refl).
  unfold ret. do 2 f_equal.
  apply list_eq. intros i. unfold resultRows.
  rewrite list_lookup_imap, list_lookup_fmap.
  destruct (participants data !! i) as [p|] eqn:Hp; simpl; [|reflexivity].
  unfold at_index.
  rewrite (participantMonthlyGross_lookup i p Hp),
          (incomePercentages_lookup i p Hp), nonLimitedDues_map.
  rewrite !list_lookup_fmap, Hp. simpl.
  unfold row_of, adjusted_of. do 2 f_equal.
  destruct (limited p) eqn:Hl; [reflexivity|].
  rewrite (clamped_of_unlimited p Hl). reflexivity.
Qed.

Lemma onValid_rows (st : AppState) :
  onValid data st
  = Normal {| st_activeStep := 2;
              st_completed := <[0%nat := true]> (<[1%nat := true]> ∅);
              st_results := map (row_of data) (participants data);
              st_totalGross := totalGross data |}.
Proof. unfold onValid. rewrite computeResults_rows. reflexivity. Qed.

End Structure.

(** ** Finite numbers: the operators are the exact ones *)

Section Exact.

Lemma finite_Fin (x : num) : finite x = true -> x = Fin (qval x).
Proof. destruct x; simpl; intros H; try discriminate; reflexivity. Qed.

Lemma add_Fin (a b : Qc) : Fin a + Fin b = Fin (a + b).
Proof. reflexivity. Qed.

Lemma mul_Fin (a b : Qc) : Fin a * Fin b = Fin (a * b).
Proof. reflexivity. Qed.

Lemma div_Fin (a b : Qc) : b <> 0%Qc -> Fin a / Fin b = Fin (a / b).
Proof.
  intros Hb. unfold div. rewrite (proj2 (Qceqb_neq b 0%Qc) Hb). reflexivity.
Qed.

Lemma div_Fin_zero (a : Qc) : finite (Fin a / Fin 0%Qc) = false.
Proof.
  unfold div. rewrite Qceqb_refl.
  destruct (Qceqb a 0); [reflexivity|]. unfold inf.
  destruct (signbit (Fin a)); reflexivity.
Qed.

Lemma gt_Fin (a b : Qc) : (Fin a >? Fin b) = true <-> (b < a)%Qc.
Proof. unfold gt, lt. apply Qcltb_lt. Qed.

Lemma positive_literal (z : Z) : (0 < z)%Z -> (0 < Q2Qc (inject_Z z))%Qc.
Proof.
  intros Hz. unfold Qclt. cbn [this Q2Qc].
  rewrite !Qred_correct. unfold Qlt, inject_Z. cbn [Qnum Qden]. lia.
Qed.

Lemma Qsum_cons (x : Qc) (l : list Qc) : Qsum (x :: l) = (x + Qsum l)%Qc.
Proof. reflexivity. Qed.

Lemma fold_add_Fin (qs : list Qc) :
  forall a, fold_left (fun acc x => acc + x) (map Fin qs) (Fin a)
            = Fin (a + Qsum qs).
Proof.
  induction qs as [|q qs IH]; intros a; cbn [fold_left map Qsum foldr].
  - f_equal. ring.
  - rewrite add_Fin, IH. f_equal. fold (Qsum qs). ring.
Qed.

Lemma sum_map_Fin {A} (g : A -> num) (f : A -> Qc) (l : list A) :
  (forall x, x ∈ l -> g x = Fin (f x)) ->
  sum (map g l) = Fin (Qsum (map f l)).
Proof.
  intros Hg. unfold sum.
  replace (map g l) with (map Fin (map f l)).
  - change #0 with (Fin 0%Qc). rewrite fold_add_Fin. f_equal. ring.
  - rewrite map_map. apply map_ext_in. intros x Hx. symmetry. apply Hg.
    apply list_elem_of_In. exact Hx.
Qed.

Lemma Qsum_scale {A} (c : Qc) (f : A -> Qc) (l : list A) :
  Qsum (map (fun x => c * f x)%Qc l) = (c * Qsum (map f l))%Qc.
Proof.
  induction l as [|x l IH]; simpl; [ring|]. rewrite IH. ring.
Qed.

Lemma Qsum_ext {A} (f g : A -> Qc) (l : list A) :
  (forall x, x ∈ l -> f x = g x) ->
  Qsum (map f l) = Qsum (map g l).
Proof.
  intros H. f_equal. apply map_ext_in. intros x Hx. apply H.
  apply list_elem_of_In. exact Hx.
Qed.

Lemma Qsum_pos {A} (f : A -> Qc) (l : list A) :
  l <> [] -> (forall x, x ∈ l -> (0 < f x)%Qc) -> (0 < Qsum (map f l))%Qc.
Proof.
  induction l as [|x l IH]; intros Hne Hpos; [congruence|].
  simpl. destruct l as [|y l].
  - simpl. rewrite Qcplus_0_r. apply Hpos. left.
  - apply Qcplus_pos_pos.
    + apply Hpos. left.
    + apply IH; [discriminate|]. intros z Hz. apply Hpos. right. exact Hz.
Qed.

End Exact.

(** ** Valid input: every intermediate value is finite *)

Section ValidInput.

Variable data : BillPay.
Hypothesis Hvalid : valid data.

Local Notation "'ps'" := (participants data).
Local Notation "'T'" :=
  (Qsum (map (fun p => qval (monthlyGross p)) (participants data))).

Lemma valid_amount : amount data = Fin (qval (amount data)) /\ (0 < qval (amount data))%Qc.
Proof.
  destruct Hvalid as [Hs Hf]. unfold BillPay_schema, BillPay_finite in *.
  repeat (apply andb_prop in Hs as [Hs ?]). repeat (apply andb_prop in Hf as [Hf ?]).
  destruct (amount data) as [a| | |]; try discriminate.
  split; [reflexivity|]. apply gt_Fin in Hs. exact Hs.
Qed.

Lemma valid_limits :
  maximumLimit data = Fin (qval (maximumLimit data))
  /\ minimumLimit data = Fin (qval (minimumLimit data)).
Proof.
  destruct Hvalid as [_ Hf]. unfold BillPay_finite in Hf.
  repeat (apply andb_prop in Hf as [Hf ?]).
  split; apply finite_Fin; assumption.
Qed.

Lemma valid_participant (p : Participant) :
  p ∈ ps -> Participant_schema p = true /\ Participant_finite p = true.
Proof.
  intros Hp. apply list_elem_of_In in Hp.
  destruct Hvalid as [Hs Hf]. unfold BillPay_schema, BillPay_finite in *.
  apply andb_prop in Hs as [_ Hs]. apply andb_prop in Hf as [_ Hf].
  split; [exact (proj1 (forallb_forall _ _) Hs p Hp)
         | exact (proj1 (forallb_forall _ _) Hf p Hp)].
Qed.

Lemma monthlyGross_positive (p : Participant) :
  Participant_schema p = true -> Participant_finite p = true ->
  monthlyGross p = Fin (qval (monthlyGross p)) /\ (0 < qval (monthlyGross p))%Qc.
Proof.
  unfold Participant_schema, Participant_finite, monthlyGross.
  destruct (income p) as [r h | s]; intros Hs Hf.
  - apply andb_prop in Hf as [Hr Hh].
    apply finite_Fin in Hr, Hh. rewrite Hr, Hh in Hs |- *.
    apply andb_prop in Hs as [Hs _]. apply andb_prop in Hs as [Hr0 Hh0].
    apply gt_Fin in Hr0, Hh0.
    unfold of_Z. rewrite !mul_Fin. split; [reflexivity|]. cbn [qval].
    repeat apply Qcmult_pos_pos; try assumption.
    apply positive_literal. lia.
  - apply finite_Fin in Hf. rewrite Hf in Hs |- *. apply gt_Fin in Hs.
    unfold of_Z. rewrite div_Fin.
    + split; [reflexivity|]. cbn [qval]. unfold Qcdiv.
      apply Qcmult_pos_pos; [exact Hs|]. apply Qcinv_pos.
      apply positive_literal. lia.
    + apply not_eq_sym, Qclt_not_eq, positive_literal. lia.
Qed.

Lemma monthlyGross_valid (p : Participant) :
  p ∈ ps ->
  monthlyGross p = Fin (qval (monthlyGross p)) /\ (0 < qval (monthlyGross p))%Qc.
Proof.
  intros Hp. destruct (valid_participant p Hp). now apply monthlyGross_positive.
Qed.

Lemma totalGross_valid : totalGross data = Fin T.
Proof.
  change (totalGross data) with (sum (map monthlyGross ps)).
  apply sum_map_Fin. intros p Hp. apply monthlyGross_valid, Hp.
Qed.

Lemma totalGross_positive : ps <> [] -> (0 < T)%Qc.
Proof.
  intros Hne. apply Qsum_pos; [exact Hne|].
  intros p Hp. apply monthlyGross_valid, Hp.
Qed.

Lemma member_nonempty (p : Participant) : p ∈ ps -> ps <> [].
Proof. intros Hp Hnil. rewrite Hnil in Hp. inversion Hp. Qed.

Lemma hundred_nonzero : Q2Qc (inject_Z 100) <> 0%Qc.
Proof. apply not_eq_sym, Qclt_not_eq, positive_literal. lia. Qed.

Lemma percentage_valid (p : Participant) :
  p ∈ ps ->
  percentage_of data p
  = Fin (qval (monthlyGross p) / T * Q2Qc (inject_Z 100))%Qc.
Proof.
  intros Hp. unfold percentage_of.
  rewrite totalGross_valid, (proj1 (monthlyGross_valid p Hp)).
  rewrite div_Fin.
  - reflexivity.
  - apply not_eq_sym, Qclt_not_eq, totalGross_positive.
    exact (member_nonempty p Hp).
Qed.

Lemma due_valid (p : Participant) :
  p ∈ ps ->
  due_of data p = Fin (qval (amount data) * (qval (monthlyGross p) / T))%Qc.
Proof.
  intros Hp. unfold due_of.
  rewrite (percentage_valid p Hp), (proj1 valid_amount).
  unfold of_Z at 1. rewrite div_Fin by exact hundred_nonzero.
  rewrite mul_Fin. cbn [qval]. f_equal.
  assert (HT : T <> 0%Qc).
  { apply not_eq_sym, Qclt_not_eq, totalGross_positive.
    exact (member_nonempty p Hp). }
  field. split; [exact HT | exact hundred_nonzero].
Qed.

Lemma clamp_spec_exact (b : bool) (due deltaBalance : Qc) :
  clamp_spec data b (Fin due) (Fin deltaBalance)
  = (Fin (qval (fst (clamp_spec data b (Fin due) #0))),
     Fin (deltaBalance
          + (due - qval (fst (clamp_spec data b (Fin due) #0))))%Qc).
Proof.
  unfold clamp_spec. destruct valid_limits as [Hmax Hmin].
  rewrite Hmax, Hmin.
  destruct (b && nonzero (Fin (qval (maximumLimit data)))
            && (Fin due >? Fin (qval (maximumLimit data)))); [reflexivity|].
  destruct (b && nonzero (Fin (qval (minimumLimit data)))
            && (Fin due <? Fin (qval (minimumLimit data)))); [reflexivity|].
  cbn [fst qval]. do 2 f_equal. ring.
Qed.

Lemma clamped_valid (p : Participant) :
  p ∈ ps -> clamped_of data p = Fin (qval (clamped_of data p)).
Proof.
  intros Hp. unfold clamped_of at 1. rewrite (due_valid p Hp).
  change #0 with (Fin 0%Qc). rewrite clamp_spec_exact. cbn [fst].
  unfold clamped_of. rewrite (due_valid p Hp). reflexivity.
Qed.

Lemma clamp_pass_exact (l : list Participant) :
  (forall p, p ∈ l -> p ∈ ps) ->
  forall deltaBalance : Qc,
    snd (clamp_pass data l (Fin deltaBalance))
    = Fin (deltaBalance
           + Qsum (map (fun p => qval (due_of data p) - qval (clamped_of data p)) l))%Qc.
Proof.
  induction l as [|p l IH]; intros Hin deltaBalance.
  - simpl. f_equal. ring.
  - assert (Hp : p ∈ ps) by (apply Hin; left).
    assert (Hc : clamp_spec data (limited p) (due_of data p) (Fin deltaBalance)
                 = (Fin (qval (clamped_of data p)),
                    Fin (deltaBalance
                         + (qval (due_of data p) - qval (clamped_of data p)))%Qc)).
    { unfold clamped_of. rewrite (due_valid p Hp). cbn [qval].
      apply clamp_spec_exact. }
    cbn [clamp_pass map]. rewrite Hc, Qsum_cons.
    specialize (IH (fun q Hq => Hin q (list_elem_of_further _ _ _ Hq))).
    match goal with
    | |- context [clamp_pass data l (Fin ?d)] =>
        specialize (IH d); destruct (clamp_pass data l (Fin d)) as [cs d2]
    end.
    cbn [snd] in IH |- *. rewrite IH. f_equal. ring.
Qed.

Lemma clampingDelta_valid :
  clampingDelta data
  = Fin (Qsum (map (fun p => qval (due_of data p) - qval (clamped_of data p)) ps))%Qc.
Proof.
  rewrite clampingDelta_clamp_pass. change #0 with (Fin 0%Qc).
  rewrite clamp_pass_exact by auto. f_equal. ring.
Qed.

End ValidInput.

(** * The claims *)

(** ** Deciding concrete equalities *)

Lemma row_eqb_eq (r1 r2 : RelevantInfo) : row_eqb r1 r2 = true -> r1 = r2.
Proof.
  unfold row_eqb. intros H.
  repeat (apply andb_prop in H as [H ?]).
  destruct r1, r2; simpl in *.
  f_equal; apply eqb_eq; assumption.
Qed.

Lemma rows_eqb_eq (l1 : list RelevantInfo) :
  forall l2, rows_eqb l1 l2 = true -> l1 = l2.
Proof.
  induction l1 as [|r1 l1 IH]; intros [|r2 l2] H; simpl in H;
    try discriminate; [reflexivity|].
  apply andb_prop in H as [Hr Hl].
  f_equal; [apply row_eqb_eq, Hr | apply IH, Hl].
Qed.

Lemma num_eq_by_eqb (x y : num) : eqb x y = true -> x = y.
Proof. apply eqb_eq. Qed.

Ltac num_decide := apply num_eq_by_eqb; vm_compute; reflexivity.
Ltac nums_decide :=
  repeat (apply (f_equal2 cons); [num_decide|]); reflexivity.
Ltac rows_decide := apply rows_eqb_eq; vm_compute; reflexivity.
Ltac valid_decide := split; vm_compute; reflexivity.

(** ** C5: monthly gross income *)

(** C5. For every participant the row's [grossMonthlyIncome] is
    [hourlyRate * hoursPerWeek * 4] for an hourly income and
    [annualSalary / 12] for a salary; an hourly rate of 15 at 40 hours a week
    gives 2400. *)
Theorem C5_gross_monthly_income (data : BillPay) (st : AppState) :
  exists st',
    onValid data st = Normal st'
    /\ forall (i : nat) (p : Participant),
         participants data !! i = Some p ->
         exists r,
           st_results st' !! i = Some r
           /\ grossMonthlyIncome r
              = match income p with
                | hourly hourlyRate hoursPerWeek => hourlyRate * hoursPerWeek * #4
                | salary annualSalary => annualSalary / #12
                end
           /\ (income p = hourly #15 #40 -> grossMonthlyIncome r = #2400).
Proof.
  eexists. split; [apply onValid_rows|].
  intros i p Hp. exists (row_of data p). cbn [st_results].
  split; [rewrite list_lookup_fmap, Hp; reflexivity|].
  split; [reflexivity|].
  intros Hinc. cbn [row_of grossMonthlyIncome]. unfold monthlyGross.
  rewrite Hinc. num_decide.
Qed.

(** The default form value's second participant: 15 an hour, 40 hours. *)
Example C5_scenarioC :
  exists st',
    onValid scenarioC initialState = Normal st'
    /\ map grossMonthlyIncome (st_results st') = [ #2500; #2400 ].
Proof.
  eexists. split; [apply onValid_rows|]. cbn [st_results].
  cbn [scenarioC participants map row_of grossMonthlyIncome].
  nums_decide.
Qed.

(** ** C8: one row per participant, in order, and the household income *)

(** C8. For every input the handler completes with a table that has one row
    per participant, the row at index [i] being the one computed from the
    participant at index [i] (its gross income, its share of the household
    income, its proportional due, and the adjusted due of [row_of]), together
    with the household gross income (the sum of the rows' gross incomes); the
    outcome is a function of the form value alone: it does not depend on the
    state the handler starts from. *)
Theorem C8_rows_in_order (data : BillPay) (st : AppState) :
  exists st',
    onValid data st = Normal st'
    /\ length (st_results st') = length (participants data)
    /\ (forall (i : nat) (p : Participant),
          participants data !! i = Some p ->
          exists r,
            st_results st' !! i = Some r
            /\ r = row_of data p
            /\ grossMonthlyIncome r = monthlyGross p
            /\ percentageOfTotal r = (grossMonthlyIncome r / st_totalGross st') * #100
            /\ amountDue r = amount data * (percentageOfTotal r / #100))
    /\ st_totalGross st' = totalGross data
    /\ st_totalGross st' = sum (map grossMonthlyIncome (st_results st'))
    /\ (forall st2 : AppState, onValid data st2 = onValid data st).
Proof.
  eexists. split; [apply onValid_rows|]. cbn [st_results st_totalGross].
  split; [apply length_map|].
  split.
  { intros i p Hp. exists (row_of data p).
    rewrite list_lookup_fmap, Hp. repeat split. }
  split; [reflexivity|].
  split.
  - rewrite map_map. reflexivity.
  - intros st2. rewrite !onValid_rows. reflexivity.
Qed.

(** ** C3: the clamping rule *)

(** C3. The callback of the clamping pass, run for the participant at
    [index] with the delta balance [deltaBalance]: a limited participant whose
    due exceeds a nonzero [maximumLimit] gets the maximum and [due - maximum]
    is added to the delta balance; otherwise a limited participant whose due is
    below a nonzero [minimumLimit] gets the minimum and [due - minimum] is
    added to the same balance; otherwise due and balance are unchanged.  The
    maximum is tested first, an unlimited participant is never clamped, a zero
    limit switches its bound off, and the pass of [onValid] is this rule
    applied to the participants in order, threading the balance. *)
Theorem C3_clamping_rule
  (data : BillPay) (index : nat) (p : Participant) (due deltaBalance : num) :
  participants data !! index = Some p ->
  exists clamped deltaBalance',
    applyLimits data due index deltaBalance = Normal (clamped, deltaBalance')
    /\ (if limited p && nonzero (maximumLimit data) && (due >? maximumLimit data)
        then clamped = maximumLimit data
             /\ deltaBalance' = deltaBalance + (due - maximumLimit data)
        else if limited p && nonzero (minimumLimit data) && (due <? minimumLimit data)
        then clamped = minimumLimit data
             /\ deltaBalance' = deltaBalance + (due - minimumLimit data)
        else clamped = due /\ deltaBalance' = deltaBalance)
    /\ (limited p = false -> clamped = due /\ deltaBalance' = deltaBalance)
    /\ (maximumLimit data = #0 ->
        (clamped, deltaBalance')
        = if limited p && nonzero (minimumLimit data) && (due <? minimumLimit data)
          then (minimumLimit data, deltaBalance + (due - minimumLimit data))
          else (due, deltaBalance))
    /\ (minimumLimit data = #0 ->
        (clamped, deltaBalance')
        = if limited p && nonzero (maximumLimit data) && (due >? maximumLimit data)
          then (maximumLimit data, deltaBalance + (due - maximumLimit data))
          else (due, deltaBalance))
    /\ limitedDues data deltaBalance
       = Normal (clamp_pass data (participants data) deltaBalance).
Proof.
  intros Hp.
  pose proof (applyLimits_clamp_spec data index p due deltaBalance Hp) as Hrun.
  destruct (clamp_spec data (limited p) due deltaBalance) as [clamped d'] eqn:Hspec.
  exists clamped, d'. split; [exact Hrun|].
  unfold clamp_spec in Hspec.
  split; [|split; [|split; [|split]]].
  - destruct (limited p && nonzero (maximumLimit data) && (due >? maximumLimit data));
      [injection Hspec as <- <-; split; reflexivity|].
    destruct (limited p && nonzero (minimumLimit data) && (due <? minimumLimit data));
      injection Hspec as <- <-; split; reflexivity.
  - intros Hl. rewrite Hl in Hspec. cbn [andb] in Hspec.
    injection Hspec as <- <-. split; reflexivity.
  - intros Hmax. rewrite <- Hspec, Hmax.
    change (nonzero #0) with false. rewrite andb_false_r. reflexivity.
  - intros Hmin. rewrite <- Hspec, Hmin.
    change (nonzero #0) with false. rewrite andb_false_r. cbn [andb].
    destruct (limited p && nonzero (maximumLimit data) && (due >? maximumLimit data));
      reflexivity.
  - apply limitedDues_clamp_pass.
Qed.

(** The rule at scenario B: participant A, with a due of 500 and a maximum
    of 400, is capped and 100 goes to the delta balance. *)
Lemma C3_witness :
  exists clamped deltaBalance',
    applyLimits scenarioB #500 0 #0 = Normal (clamped, deltaBalance')
    /\ clamped = #400 /\ deltaBalance' = #100.
Proof.
  destruct (C3_clamping_rule scenarioB 0
              {| name := "A"; limited := true; income := salary #30000 |}
              #500 #0 eq_refl)
    as (clamped & d' & Hrun & Hrule & _).
  exists clamped, d'. split; [exact Hrun|].
  vm_compute in Hrule. destruct Hrule as [-> ->].
  split; num_decide.
Defined.

(** ** C4: the redistribution pass *)

Lemma filter_count (ps : list Participant) :
  length (filter (fun participant => negb (limited participant) = true) ps)
  = countOfUnlimitedParticipants ps.
Proof.
  induction ps as [|p ps IH]; [reflexivity|].
  rewrite filter_cons. cbn [countOfUnlimitedParticipants].
  destruct (limited p); cbn [negb].
  - rewrite decide_False by discriminate. exact IH.
  - rewrite decide_True by reflexivity. cbn [length]. rewrite IH. reflexivity.
Qed.

(** C4. With [limited_dues] the array the clamping pass returns and
    [clampingDelta] the balance it leaves: the row of an unlimited participant
    has [adjustedDue = amountDue + clampingDelta / n], where [n] is the number
    of participants with [limited = false] (its clamped due is its unadjusted
    due); the row of a limited participant has [adjustedDue] equal to its
    clamped due.  The handler's divisor [nonLimitedParticipantCount] is that
    number. *)
Theorem C4_redistribution (data : BillPay) (st : AppState) :
  exists st' limited_dues,
    onValid data st = Normal st'
    /\ limitedDues data #0 = Normal (limited_dues, clampingDelta data)
    /\ nonLimitedParticipantCount data
       = countOfUnlimitedParticipants (participants data)
    /\ forall (i : nat) (p : Participant),
         participants data !! i = Some p ->
         exists r clamped,
           st_results st' !! i = Some r
           /\ limited_dues !! i = Some clamped
           /\ (limited p = false -> clamped = amountDue r)
           /\ adjustedDue r
              = if limited p then clamped
                else amountDue r
                     + clampingDelta data
                       / of_nat (countOfUnlimitedParticipants (participants data)).
Proof.
  exists {| st_activeStep := 2;
            st_completed := <[0%nat := true]> (<[1%nat := true]> ∅);
            st_results := map (row_of data) (participants data);
            st_totalGross := totalGross data |},
         (map (clamped_of data) (participants data)).
  split; [apply onValid_rows|]. split; [|split].
  - rewrite limitedDues_clamp_pass, clampingDelta_clamp_pass.
    rewrite <- (clamp_pass_fst data (participants data) #0).
    destruct (clamp_pass data (participants data) #0). reflexivity.
  - apply filter_count.
  - intros i p Hp. exists (row_of data p), (clamped_of data p).
    cbn [st_results]. rewrite !list_lookup_fmap, Hp.
    split; [reflexivity|]. split; [reflexivity|].
    split; [intros Hl; apply clamped_of_unlimited, Hl|].
    cbn [row_of adjustedDue amountDue]. unfold adjusted_of.
    rewrite <- filter_count. destruct (limited p); reflexivity.
Qed.

(** Scenario B: A keeps the clamped 400, B pays 500 + 100 / 1 = 600. *)
Example C4_scenarioB :
  exists st',
    onValid scenarioB initialState = Normal st'
    /\ map amountDue (st_results st') = [ #500; #500 ]
    /\ map adjustedDue (st_results st') = [ #400; #600 ]
    /\ clampingDelta scenarioB = #100.
Proof.
  eexists. split; [apply onValid_rows|]. cbn [st_results].
  split; [|split]; [nums_decide | nums_decide | num_decide].
Qed.

(** One limited participant next to two unlimited ones: A keeps the clamped
    200 and the 100 taken off are split between B and C, 300 + 100 / 2 = 350
    each.  Dividing by the number of limited participants (1) or by the
    length of the list (3) would give other amounts. *)
Example C4_twoUnlimited :
  exists st',
    onValid twoUnlimited initialState = Normal st'
    /\ map amountDue (st_results st') = [ #300; #300; #300 ]
    /\ map adjustedDue (st_results st') = [ #200; #350; #350 ]
    /\ clampingDelta twoUnlimited = #100
    /\ nonLimitedParticipantCount twoUnlimited = 2%nat.
Proof.
  eexists. split; [apply onValid_rows|]. cbn [st_results].
  split; [|split; [|split]]; [nums_decide | nums_decide | num_decide | reflexivity].
Qed.

(** ** Sums over a valid input *)

Section Conservation.

Variable data : BillPay.
Hypothesis Hvalid : valid data.
Hypothesis Hnonempty : participants data <> [].

Lemma totalGross_nonzero :
  Qsum (map (fun p => qval (monthlyGross p)) (participants data)) <> 0%Qc.
Proof.
  apply not_eq_sym, Qclt_not_eq, totalGross_positive; assumption.
Qed.

Lemma Qsum_shares :
  Qsum (map (fun p => qval (monthlyGross p)
                      / Qsum (map (fun p => qval (monthlyGross p))
                                  (participants data)))%Qc
            (participants data)) = 1%Qc.
Proof.
  pose proof totalGross_nonzero as HT.
  set (T := Qsum (map (fun p => qval (monthlyGross p)) (participants data))) in *.
  rewrite (Qsum_ext _ (fun p => / T * qval (monthlyGross p))%Qc)
    by (intros; unfold Qcdiv; ring).
  rewrite Qsum_scale. fold T. field. exact HT.
Qed.

Lemma Qsum_dues :
  Qsum (map (fun p => qval (due_of data p)) (participants data))
  = qval (amount data).
Proof.
  rewrite (Qsum_ext _ (fun p => qval (amount data)
                                * (qval (monthlyGross p)
                                   / Qsum (map (fun p => qval (monthlyGross p))
                                               (participants data))))%Qc).
  - rewrite Qsum_scale, Qsum_shares. ring.
  - intros p Hp. rewrite (due_valid data Hvalid p Hp). reflexivity.
Qed.

Lemma sum_amountDue :
  sum (map (due_of data) (participants data)) = amount data.
Proof.
  rewrite (sum_map_Fin _ (fun p => qval (due_of data p))).
  - rewrite Qsum_dues. symmetry. apply (valid_amount data Hvalid).
  - intros p Hp. rewrite (due_valid data Hvalid p Hp). reflexivity.
Qed.

Lemma sum_percentage :
  sum (map (percentage_of data) (participants data)) = #100.
Proof.
  rewrite (sum_map_Fin _ (fun p => Q2Qc (inject_Z 100)
                                   * (qval (monthlyGross p)
                                      / Qsum (map (fun p => qval (monthlyGross p))
                                                  (participants data))))%Qc).
  - rewrite Qsum_scale, Qsum_shares, Qcmult_1_r. reflexivity.
  - intros p Hp. rewrite (percentage_valid data Hvalid p Hp). f_equal. ring.
Qed.

End Conservation.

Lemma totalGross_nonzero_nonempty (data : BillPay) :
  totalGross data <> #0 -> participants data <> [].
Proof.
  intros Hne Hnil. apply Hne. unfold totalGross, participantMonthlyGross.
  rewrite Hnil. reflexivity.
Qed.

(** ** C6: the proportional split conserves the bill, in exact arithmetic *)


Lemma scenarioC_totalGross : totalGross scenarioC <> #0.
Proof.
  intros H. apply eqb_eq in H. vm_compute in H. discriminate H.
Qed.



(** ** C1: clamping and redistribution conserve the bill, in exact arithmetic *)

Section Redistribution.

Lemma qval_of_nat_S (k : nat) :
  qval (of_nat (S k)) = (qval (of_nat k) + 1)%Qc.
Proof. rewrite of_nat_S. reflexivity. Qed.

Lemma Qsum_minus {A} (f g : A -> Qc) (l : list A) :
  Qsum (map (fun x => f x - g x)%Qc l)
  = (Qsum (map f l) - Qsum (map g l))%Qc.
Proof.
  induction l as [|x l IH]; cbn [map]; rewrite ?Qsum_cons; [reflexivity|].
  rewrite IH. ring.
Qed.

Lemma Qsum_redistribute (c : Participant -> Qc) (x : Qc) (l : list Participant) :
  Qsum (map (fun p => if limited p then c p else c p + x)%Qc l)
  = (Qsum (map c l)
     + qval (of_nat (length (filter (fun p => negb (limited p) = true) l))) * x)%Qc.
Proof.
  induction l as [|p l IH]; cbn [map]; rewrite ?Qsum_cons.
  - change (0 = 0 + 0 * x)%Qc. ring.
  - rewrite IH, filter_cons. destruct (limited p); cbn [negb].
    + rewrite decide_False by discriminate. ring.
    + rewrite decide_True by reflexivity. cbn [length].
      rewrite qval_of_nat_S. ring.
Qed.

Lemma count_zero_all_limited (l : list Participant) :
  length (filter (fun p => negb (limited p) = true) l) = 0%nat ->
  forall p, p ∈ l -> limited p = true.
Proof.
  intros Hlen p Hp. destruct (limited p) eqn:Hl; [reflexivity|].
  assert (Hin : p ∈ filter (fun p => negb (limited p) = true) l).
  { apply list_elem_of_filter. split; [rewrite Hl; reflexivity | exact Hp]. }
  destruct (filter (fun p => negb (limited p) = true) l); [inversion Hin|].
  discriminate Hlen.
Qed.

Lemma of_nat_div (x : Qc) (n : nat) :
  n <> 0%nat -> Fin x / of_nat n = Fin (x / qval (of_nat n)).
Proof.
  intros Hn. unfold of_nat, of_Z. apply div_Fin, of_nat_nonzero, Hn.
Qed.

Variable data : BillPay.
Hypothesis Hvalid : valid data.
Hypothesis Hnonempty : participants data <> [].

Lemma Qsum_clamped :
  (Qsum (map (fun p => qval (clamped_of data p)) (participants data))
   + qval (clampingDelta data))%Qc
  = qval (amount data).
Proof.
  rewrite (clampingDelta_valid data Hvalid). cbn [qval].
  rewrite Qsum_minus, (Qsum_dues data Hvalid Hnonempty). ring.
Qed.

Lemma sum_adjustedDue :
  nonLimitedParticipantCount data <> 0%nat \/ clampingDelta data = #0 ->
  sum (map (adjusted_of data) (participants data)) = amount data.
Proof.
  intros Hcase. pose proof Qsum_clamped as Hsum.
  rewrite (proj1 (valid_amount data Hvalid)). rewrite <- Hsum.
  destruct (decide (nonLimitedParticipantCount data = 0%nat)) as [Hzero | Hpos].
  - destruct Hcase as [Hcase | Hdelta]; [contradiction|].
    rewrite Hdelta. change (qval #0) with 0%Qc. rewrite Qcplus_0_r.
    apply sum_map_Fin. intros p Hp. unfold adjusted_of.
    rewrite (count_zero_all_limited _ Hzero p Hp).
    apply (clamped_valid data Hvalid p Hp).
  - rewrite (sum_map_Fin _
               (fun p => if limited p then qval (clamped_of data p)
                         else qval (clamped_of data p)
                              + qval (clampingDelta data)
                                / qval (of_nat (nonLimitedParticipantCount data)))%Qc).
    + f_equal. rewrite Qsum_redistribute.
      fold (nonLimitedParticipantCount data). field.
      apply of_nat_nonzero, Hpos.
    + intros p Hp. unfold adjusted_of. destruct (limited p) eqn:Hl.
      * apply (clamped_valid data Hvalid p Hp).
      * rewrite (clamped_of_unlimited data p Hl).
        rewrite (clampingDelta_valid data Hvalid) at 1.
        rewrite (of_nat_div _ _ Hpos), (due_valid data Hvalid p Hp), add_Fin.
        rewrite (clampingDelta_valid data Hvalid). reflexivity.
Qed.

End Redistribution.



(** Over binary64 no operation rounds on scenario B, and the handler returns
    the numbers of the exact computation: 400 and 600, which sum to 1000. *)
Example C1_scenarioB_binary64 :
  Binary64.onValid Binary64.scenarioB
  = Normal ([ {| Binary64.grossMonthlyIncome := 2500%float;
                 Binary64.percentageOfTotal := 50%float;
                 Binary64.amountDue := 500%float;
                 Binary64.adjustedDue := 400%float |};
              {| Binary64.grossMonthlyIncome := 2500%float;
                 Binary64.percentageOfTotal := 50%float;
                 Binary64.amountDue := 500%float;
                 Binary64.adjustedDue := 600%float |} ], 5000%float).
Proof. vm_compute. reflexivity. Qed.


(** ** C7: without limited participants nothing is adjusted *)

Lemma clamp_pass_unlimited (data : BillPay) (l : list Participant) :
  (forall p, p ∈ l -> limited p = false) ->
  forall deltaBalance, snd (clamp_pass data l deltaBalance) = deltaBalance.
Proof.
  induction l as [|p l IH]; intros Hall deltaBalance; [reflexivity|].
  cbn [clamp_pass]. rewrite (Hall p) by left. rewrite clamp_spec_unlimited.
  specialize (IH (fun q Hq => Hall q (list_elem_of_further _ _ _ Hq)) deltaBalance).
  destruct (clamp_pass data l deltaBalance). exact IH.
Qed.

Lemma unlimited_counted (data : BillPay) (p : Participant) :
  p ∈ participants data -> limited p = false ->
  nonLimitedParticipantCount data <> 0%nat.
Proof.
  intros Hp Hl Hzero.
  pose proof (count_zero_all_limited _ Hzero p Hp). congruence.
Qed.

Lemma zero_div_of_nat (n : nat) : n <> 0%nat -> #0 / of_nat n = #0.
Proof.
  intros Hn. change #0 with (Fin 0%Qc). rewrite (of_nat_div _ _ Hn).
  f_equal. unfold Qcdiv. ring.
Qed.

(** C7. On an input the schema accepts (the claim's valid input) in which
    no participant is limited, the handler returns one row per participant
    and every row has [adjustedDue] equal to [amountDue]: the clamping delta
    stays 0 and [amountDue + 0 / n] is [amountDue]. *)
Theorem C7_no_limited_no_adjustment (data : BillPay) (st : AppState) :
  BillPay_schema data = true ->
  (forall p, p ∈ participants data -> limited p = false) ->
  exists st',
    onValid data st = Normal st'
    /\ length (st_results st') = length (participants data)
    /\ clampingDelta data = #0
    /\ forall r, r ∈ st_results st' -> adjustedDue r = amountDue r.
Proof.
  intros _ Hall.
  eexists. split; [apply onValid_rows|]. cbn [st_results].
  split; [apply length_map|].
  assert (Hdelta : clampingDelta data = #0).
  { rewrite clampingDelta_clamp_pass. apply (clamp_pass_unlimited data _ Hall). }
  split; [exact Hdelta|].
  intros r Hr. apply list_elem_of_fmap in Hr as (p & -> & Hp).
  cbn [row_of adjustedDue amountDue].
  unfold adjusted_of. rewrite (Hall p Hp), Hdelta.
  rewrite (zero_div_of_nat _ (unlimited_counted data p Hp (Hall p Hp))).
  apply add_0_r.
Qed.

Lemma scenarioA_unlimited :
  forall p, p ∈ participants scenarioA -> limited p = false.
Proof.
  intros p Hp. apply list_elem_of_In in Hp. simpl in Hp.
  destruct Hp as [<- | [<- | []]]; reflexivity.
Qed.

Lemma C7_witness :
  exists st',
    onValid scenarioA initialState = Normal st'
    /\ length (st_results st') = length (participants scenarioA)
    /\ clampingDelta scenarioA = #0
    /\ forall r, r ∈ st_results st' -> adjustedDue r = amountDue r.
Proof.
  apply (C7_no_limited_no_adjustment scenarioA initialState).
  - vm_compute. reflexivity.
  - exact scenarioA_unlimited.
Defined.

(** Scenario A in full: both rows are 2500, 50 percent, 500, 500. *)
Example scenarioA_rows :
  exists st',
    onValid scenarioA initialState = Normal st'
    /\ st_totalGross st' = #5000
    /\ st_results st'
       = [ {| grossMonthlyIncome := #2500; percentageOfTotal := #50;
              amountDue := #500; adjustedDue := #500 |};
           {| grossMonthlyIncome := #2500; percentageOfTotal := #50;
              amountDue := #500; adjustedDue := #500 |} ].
Proof.
  eexists. split; [apply onValid_rows|]. cbn [st_results st_totalGross].
  split; [num_decide | rows_decide].
Qed.

(** ** C9: a limited participant stays inside the band *)

Lemma clamped_within_band (data : BillPay) (due : num) :
  nonzero (minimumLimit data) = true ->
  nonzero (maximumLimit data) = true ->
  (minimumLimit data <=? maximumLimit data) = true ->
  isNaN due = false ->
  (minimumLimit data <=? fst (clamp_spec data true due #0)) = true
  /\ (fst (clamp_spec data true due #0) <=? maximumLimit data) = true.
Proof.
  intros Hmin Hmax Hle Hdue. unfold clamp_spec. rewrite Hmin, Hmax. cbn [andb].
  destruct (le_not_NaN _ _ Hle) as [Hm HM].
  destruct (due >? maximumLimit data) eqn:Egt; cbn [fst].
  - split; [exact Hle | apply le_refl, HM].
  - destruct (due <? minimumLimit data) eqn:Elt; cbn [fst].
    + split; [apply le_refl, Hm | exact Hle].
    + split; apply lt_false_le; assumption.
Qed.

Lemma clamped_NaN (data : BillPay) (due : num) :
  isNaN due = true -> fst (clamp_spec data true due #0) = due.
Proof.
  destruct due; try discriminate. intros _. unfold clamp_spec.
  replace (NaN >? maximumLimit data) with false
    by (destruct (maximumLimit data); reflexivity).
  replace (NaN <? minimumLimit data) with false
    by (destruct (minimumLimit data); reflexivity).
  rewrite !andb_false_r. reflexivity.
Qed.

(** C9, as the handler computes.  For a limited participant, when
    [minimumLimit] and [maximumLimit] are both nonzero and
    [minimumLimit <= maximumLimit]: the row's [adjustedDue] lies in
    [[minimumLimit, maximumLimit]] provided the row's [amountDue] is a number;
    an [amountDue] that is [NaN] fails both comparisons of the clamping rule
    and comes back as the [adjustedDue].  The statement rests on the
    comparisons alone and holds for every form value. *)
Theorem C9_limited_within_band
  (data : BillPay) (st : AppState) (i : nat) (p : Participant) :
  participants data !! i = Some p ->
  limited p = true ->
  nonzero (minimumLimit data) = true ->
  nonzero (maximumLimit data) = true ->
  (minimumLimit data <=? maximumLimit data) = true ->
  exists st' r,
    onValid data st = Normal st'
    /\ st_results st' !! i = Some r
    /\ (isNaN (amountDue r) = false ->
        (minimumLimit data <=? adjustedDue r) = true
        /\ (adjustedDue r <=? maximumLimit data) = true)
    /\ (isNaN (amountDue r) = true -> isNaN (adjustedDue r) = true).
Proof.
  intros Hp Hl Hmin Hmax Hle.
  eexists. exists (row_of data p). split; [apply onValid_rows|].
  cbn [st_results]. split; [rewrite list_lookup_fmap, Hp; reflexivity|].
  cbn [row_of adjustedDue amountDue]. unfold adjusted_of, clamped_of.
  rewrite Hl. split.
  - intros Hdue. apply clamped_within_band; assumption.
  - intros Hdue. rewrite (clamped_NaN data _ Hdue). exact Hdue.
Qed.

(** The default limits 600 and 200 with the first participant of scenario C. *)
Lemma C9_witness :
  exists st' r,
    onValid scenarioC initialState = Normal st'
    /\ st_results st' !! 0%nat = Some r
    /\ (isNaN (amountDue r) = false ->
        (minimumLimit scenarioC <=? adjustedDue r) = true
        /\ (adjustedDue r <=? maximumLimit scenarioC) = true)
    /\ (isNaN (amountDue r) = true -> isNaN (adjustedDue r) = true).
Proof.
  apply (C9_limited_within_band scenarioC initialState 0
           {| name := "Participant 1"; limited := true; income := salary #30000 |});
    vm_compute; reflexivity.
Defined.

(** A limited participant paid about [1e308] an hour for 100 hours a week
    (a form value the schema accepts, every number finite), limits 200 and
    600: the monthly income [1e308 * 100 * 4] overflows to [Infinity], the
    share [Infinity / Infinity] is [NaN], and so are [amountDue] and
    [adjustedDue], which is outside the band. *)
Lemma C9_counterexample :
  Binary64.BillPay_schema Binary64.hugeHourly = true
  /\ Binary64.BillPay_finite Binary64.hugeHourly = true
  /\ map Binary64.limited (Binary64.participants Binary64.hugeHourly) = [ true ]
  /\ (Binary64.minimumLimit Binary64.hugeHourly
      <=? Binary64.maximumLimit Binary64.hugeHourly)%float = true
  /\ Binary64.onValid Binary64.hugeHourly
     = Normal ([ {| Binary64.grossMonthlyIncome := infinity;
                    Binary64.percentageOfTotal := nan;
                    Binary64.amountDue := nan;
                    Binary64.adjustedDue := nan |} ], infinity)
  /\ (Binary64.minimumLimit Binary64.hugeHourly <=? nan)%float = false
  /\ (nan <=? Binary64.maximumLimit Binary64.hugeHourly)%float = false.
Proof. repeat split; vm_compute; reflexivity. Qed.

(** ** C10: validated incomes are never negative, and may underflow to zero *)

Section Binary64Sign.

Lemma iter_pos_preserves {A} (P : A -> Prop) (f : A -> A) :
  (forall x, P x -> P (f x)) ->
  forall n x, P x -> P (SpecFloat.iter_pos f n x).
Proof.
  intros Hf n. induction n as [n IH|n IH|]; intros x Hx;
    cbn [SpecFloat.iter_pos]; auto.
Qed.

Lemma shr_1_nonneg (mrs : shr_record) :
  (0 <= shr_m mrs)%Z -> (0 <= shr_m (shr_1 mrs))%Z.
Proof.
  destruct mrs as [m r s]. cbn [shr_m].
  destruct m as [|[p|p|]|p]; cbn [shr_1 shr_m]; lia.
Qed.

Lemma shr_fexp_nonneg (m e : Z) (l : location) :
  (0 <= m)%Z -> (0 <= shr_m (fst (shr_fexp prec emax m e l)))%Z.
Proof.
  intros Hm. unfold shr_fexp, shr.
  assert (H0 : (0 <= shr_m (shr_record_of_loc m l))%Z)
    by (destruct l as [|[]]; exact Hm).
  destruct (fexp prec emax (Zdigits2 m + e) - e)%Z; cbn [fst]; try exact H0.
  apply (iter_pos_preserves (fun mrs => (0 <= shr_m mrs)%Z));
    [apply shr_1_nonneg | exact H0].
Qed.

Lemma round_nearest_even_nonneg (m : Z) (l : location) :
  (0 <= m)%Z -> (0 <= round_nearest_even m l)%Z.
Proof.
  intros Hm. destruct l as [|[]]; cbn [round_nearest_even]; try lia.
  destruct (Z.even m); lia.
Qed.

(** Rounding a non-negative mantissa gives [+0], a positive number or
    [+Infinity]: never a negative number, never [NaN]. *)
Lemma binary_round_aux_sign_clear (m e : Z) (l : location) :
  (0 <= m)%Z -> sign_clear (binary_round_aux prec emax false m e l) = true.
Proof.
  intros Hm. unfold binary_round_aux.
  pose proof (shr_fexp_nonneg m e l Hm) as H1.
  destruct (shr_fexp prec emax m e l) as [mrs' e']. cbn [fst] in H1.
  pose proof (shr_fexp_nonneg _ e' loc_Exact
                (round_nearest_even_nonneg _ (loc_of_shr_record mrs') H1)) as H2.
  destruct (shr_fexp prec emax _ e' loc_Exact) as [mrs'' e'']. cbn [fst] in H2.
  destruct (shr_m mrs'') as [|p|p]; [reflexivity| |lia].
  destruct (e'' <=? emax - prec)%Z; reflexivity.
Qed.

Lemma SFmul_above_zero (x y : spec_float) :
  above_zero x = true -> above_zero y = true ->
  sign_clear (SFmul prec emax x y) = true.
Proof.
  destruct x as [sx|sx| |sx mx ex], y as [sy|sy| |sy my ey];
    cbn [above_zero]; try discriminate;
    destruct sx, sy; try discriminate; intros _ _;
    cbn [SFmul xorb sign_clear negb]; try reflexivity.
  apply binary_round_aux_sign_clear. lia.
Qed.

Lemma SFmul_sign_clear_finite (x : spec_float) (my : positive) (ey : Z) :
  sign_clear x = true ->
  sign_clear (SFmul prec emax x (S754_finite false my ey)) = true.
Proof.
  destruct x as [sx|sx| |sx mx ex]; cbn [sign_clear]; try discriminate;
    destruct sx; try discriminate; intros _;
    cbn [SFmul xorb sign_clear negb]; try reflexivity.
  apply binary_round_aux_sign_clear. lia.
Qed.

Lemma div_eucl_nonneg (a b : Z) :
  (0 <= a)%Z -> (0 < b)%Z -> (0 <= fst (Z.div_eucl a b))%Z.
Proof.
  intros Ha Hb. change (fst (Z.div_eucl a b)) with (a / b)%Z.
  apply Z.div_pos; lia.
Qed.

Lemma SFdiv_above_zero_finite (x : spec_float) (my : positive) (ey : Z) :
  above_zero x = true ->
  sign_clear (SFdiv prec emax x (S754_finite false my ey)) = true.
Proof.
  destruct x as [sx|sx| |sx mx ex]; cbn [above_zero]; try discriminate;
    destruct sx; try discriminate; intros _;
    cbn [SFdiv xorb sign_clear negb]; try reflexivity.
  unfold SFdiv_core_binary.
  set (s := (ex - ey - _)%Z).
  set (m' := match s with Zpos _ => _ | Z0 => _ | Zneg _ => _ end).
  assert (Hm' : (0 <= m')%Z).
  { unfold m'. destruct s; try lia. apply Z.shiftl_nonneg. lia. }
  pose proof (div_eucl_nonneg m' (Zpos my) Hm' ltac:(lia)) as Hq.
  destruct (Z.div_eucl m' (Z.pos my)) as [q r]. cbn [fst] in Hq.
  apply binary_round_aux_sign_clear. exact Hq.
Qed.

Lemma SFadd_sign_clear (x y : spec_float) :
  sign_clear x = true -> sign_clear y = true ->
  sign_clear (SFadd prec emax x y) = true.
Proof.
  destruct x as [sx|sx| |sx mx ex], y as [sy|sy| |sy my ey];
    cbn [sign_clear]; try discriminate;
    destruct sx, sy; try discriminate; intros _ _;
    cbn [SFadd sign_clear negb]; try reflexivity.
  cbn [cond_Zopp]. unfold binary_normalize.
  destruct (Z.pos _ + Z.pos _)%Z as [|p|p] eqn:E; try lia.
  unfold binary_round.
  destruct (shl_align p _ _) as [mz ez].
  apply binary_round_aux_sign_clear. lia.
Qed.

(** The comparisons with [0], on the representation. *)
Lemma gt_zero_above_zero (x : float) :
  (0 <? x)%float = true -> above_zero (Prim2SF x) = true.
Proof.
  rewrite FloatAxioms.ltb_spec. unfold SFltb.
  change (Prim2SF 0) with (S754_zero false).
  destruct (Prim2SF x) as [s|[]| |[] m e]; cbn; try discriminate; reflexivity.
Qed.

Lemma sign_clear_ge_zero (x : float) :
  sign_clear (Prim2SF x) = true -> (0 <=? x)%float = true.
Proof.
  rewrite FloatAxioms.leb_spec. unfold SFleb.
  change (Prim2SF 0) with (S754_zero false).
  destruct (Prim2SF x) as [s|[]| |[] m e]; cbn; try discriminate; reflexivity.
Qed.

Lemma monthlyGross_sign_clear (p : Binary64.Participant) :
  Binary64.Participant_schema p = true ->
  sign_clear (Prim2SF (Binary64.monthlyGross p)) = true.
Proof.
  unfold Binary64.Participant_schema, Binary64.monthlyGross.
  destruct (Binary64.income p) as [hourlyRate hoursPerWeek | annualSalary]; intros H.
  - apply andb_prop in H as [H _]. apply andb_prop in H as [Hr Hh].
    apply gt_zero_above_zero in Hr, Hh.
    rewrite FloatAxioms.mul_spec.
    change (Prim2SF 4) with (S754_finite false 4503599627370496 (-50)).
    apply SFmul_sign_clear_finite.
    rewrite FloatAxioms.mul_spec. apply SFmul_above_zero; assumption.
  - apply gt_zero_above_zero in H.
    rewrite FloatAxioms.div_spec.
    change (Prim2SF 12) with (S754_finite false 6755399441055744 (-49)).
    apply SFdiv_above_zero_finite, H.
Qed.

Lemma fold_add_sign_clear (incomes : list float) :
  (forall g, g ∈ incomes -> sign_clear (Prim2SF g) = true) ->
  forall acc, sign_clear (Prim2SF acc) = true ->
    sign_clear (Prim2SF (fold_left (fun acc income => (acc + income)%float)
                                   incomes acc)) = true.
Proof.
  induction incomes as [|g incomes IH]; intros Hall acc Hacc; [exact Hacc|].
  cbn [fold_left]. apply IH.
  - intros g' Hg'. apply Hall. right. exact Hg'.
  - rewrite FloatAxioms.add_spec. apply SFadd_sign_clear; [exact Hacc|].
    apply Hall. left.
Qed.

End Binary64Sign.

(** *** The binary64 handler returns a row per participant *)

Section Binary64Rows.

Lemma array_map_from_total {A B} (f : A -> nat -> Binary64.Eff B) (n : nat) :
  (forall x i s, (i < n)%nat -> exists y s', f x i s = Normal (y, s')) ->
  forall l k s,
    (k + length l <= n)%nat ->
    exists ys s',
      Binary64.array_map_from f k l s = Normal (ys, s')
      /\ length ys = length l.
Proof.
  intros Hf. induction l as [|x l IH]; intros k s Hk.
  - exists [], s. split; reflexivity.
  - cbn [length] in Hk. cbn [Binary64.array_map_from]. unfold Binary64.bind.
    destruct (Hf x k s ltac:(lia)) as (y & s1 & ->).
    destruct (IH (S k) s1 ltac:(lia)) as (ys & s2 & -> & Hlen).
    exists (y :: ys), s2. split; [reflexivity|]. cbn [length]. rewrite Hlen.
    reflexivity.
Qed.

Lemma applyLimits_total (data : Binary64.BillPay) (due : float) (i : nat)
    (s : float) :
  (i < length (Binary64.participants data))%nat ->
  exists y s', Binary64.applyLimits data due i s = Normal (y, s').
Proof.
  intros Hi. destruct (lookup_lt_is_Some_2 _ _ Hi) as [p Hp].
  unfold Binary64.applyLimits. rewrite Hp.
  cbn [Binary64.get_limited]. unfold Binary64.bind, Binary64.ret.
  destruct (Binary64.limited p); [|eauto].
  destruct (Binary64.truthy _ && _); [cbn; eauto|].
  destruct (Binary64.truthy _ && _); cbn; eauto.
Qed.

Lemma redistribute_total (data : Binary64.BillPay) (due : float) (i : nat)
    (s : float) :
  (i < length (Binary64.participants data))%nat ->
  exists y s', Binary64.redistribute data due i s = Normal (y, s').
Proof.
  intros Hi. destruct (lookup_lt_is_Some_2 _ _ Hi) as [p Hp].
  unfold Binary64.redistribute. rewrite Hp.
  cbn [Binary64.get_limited]. unfold Binary64.bind, Binary64.ret.
  destruct (Binary64.limited p); cbn; eauto.
Qed.

Lemma imap_at_index {A} (f : A -> float) (l : list A) :
  forall (pre : list A),
    imap (fun index _ =>
            Binary64.at_index (map f (pre ++ l)) (length pre + index)) l
    = map f l.
Proof.
  induction l as [|x l IH]; intros pre; [reflexivity|].
  cbn [imap map]. f_equal.
  - unfold Binary64.at_index. rewrite Nat.add_0_r, list_lookup_fmap.
    rewrite lookup_app_r by lia. rewrite Nat.sub_diag. reflexivity.
  - specialize (IH (pre ++ [x])). rewrite <- app_assoc in IH. cbn [app] in IH.
    rewrite <- IH. apply imap_ext. intros i y _. cbn.
    rewrite length_app. cbn [length]. f_equal. lia.
Qed.

Lemma resultRows_gross (data : Binary64.BillPay) (adjusted : list float) :
  map Binary64.grossMonthlyIncome (Binary64.resultRows data adjusted)
  = Binary64.participantMonthlyGross data.
Proof.
  unfold Binary64.resultRows. rewrite fmap_imap.
  exact (imap_at_index Binary64.monthlyGross (Binary64.participants data) []).
Qed.

(** The handler never throws: every index it reads is one of a
    participant. *)
Lemma onValid_total (data : Binary64.BillPay) :
  exists rows,
    Binary64.onValid data = Normal (rows, Binary64.totalGross data)
    /\ length rows = length (Binary64.participants data)
    /\ map Binary64.grossMonthlyIncome rows
       = Binary64.participantMonthlyGross data.
Proof.
  unfold Binary64.onValid, Binary64.computeResults, Binary64.bind.
  assert (Hlen : length (Binary64.nonLimitedDues data)
                 = length (Binary64.participants data)).
  { unfold Binary64.nonLimitedDues, Binary64.participantMonthlyGross.
    rewrite length_imap, length_map. reflexivity. }
  destruct (array_map_from_total (Binary64.applyLimits data)
              (length (Binary64.participants data))
              (fun x i s => applyLimits_total data x i s)
              (Binary64.nonLimitedDues data) 0 0%float ltac:(lia))
    as (limited_dues & s1 & Hrun1 & Hlen1).
  unfold Binary64.limitedDues, Binary64.array_map. rewrite Hrun1.
  destruct (array_map_from_total (Binary64.redistribute data)
              (length (Binary64.participants data))
              (fun x i s => redistribute_total data x i s)
              limited_dues 0 s1 ltac:(lia))
    as (adjusted & s2 & Hrun2 & Hlen2).
  unfold Binary64.adjustedDues, Binary64.array_map. rewrite Hrun2.
  cbn [Binary64.ret]. eexists. split; [reflexivity|]. split.
  - unfold Binary64.resultRows. apply length_imap.
  - apply resultRows_gross.
Qed.

End Binary64Rows.




(** ** C2: degenerate inputs *)

Lemma mul_nonfinite (x y : num) : finite x = false -> finite (x * y) = false.
Proof.
  destruct x as [a| | |], y as [b| | |]; cbn [finite mul]; intros H;
    try discriminate H; try reflexivity;
    destruct (Qceqb b 0); try reflexivity;
    unfold inf; match goal with |- context [xorb ?u ?v] => destruct (xorb u v) end;
    reflexivity.
Qed.

Lemma div_zero_nonfinite (x : num) : finite (x / #0) = false.
Proof.
  destruct x as [a| | |]; try reflexivity. apply div_Fin_zero.
Qed.

(** C2, as the handler behaves.  The handler has no failure result: on
    every input it completes normally with one row per participant.  When
    the household gross income is zero, every [percentageOfTotal] is [NaN] or
    an infinity.  When no participant is unlimited, the redistribution pass
    divides nothing: each [adjustedDue] is the clamped due the clamping pass
    returned, whatever the clamping delta is, so a nonzero delta is allocated
    to nobody. *)
Theorem C2_degenerate_rows_returned (data : BillPay) (st : AppState) :
  exists st' limited_dues,
    onValid data st = Normal st'
    /\ failed (onValid data st) = false
    /\ length (st_results st') = length (participants data)
    /\ limitedDues data #0 = Normal (limited_dues, clampingDelta data)
    /\ (zero_income data ->
        forall r, r ∈ st_results st' -> finite (percentageOfTotal r) = false)
    /\ (nonLimitedParticipantCount data = 0%nat ->
        forall (i : nat) (p : Participant),
          participants data !! i = Some p ->
          limited p = true
          /\ exists r clamped,
               st_results st' !! i = Some r
               /\ limited_dues !! i = Some clamped
               /\ adjustedDue r = clamped).
Proof.
  eexists. exists (map (clamped_of data) (participants data)).
  split; [apply onValid_rows|]. rewrite onValid_rows.
  cbn [st_results failed]. split; [reflexivity|].
  split; [apply length_map|]. split; [|split].
  - rewrite limitedDues_clamp_pass, clampingDelta_clamp_pass.
    rewrite <- (clamp_pass_fst data (participants data) #0).
    destruct (clamp_pass data (participants data) #0). reflexivity.
  - intros Hzero r Hr. apply list_elem_of_fmap in Hr as (p & -> & Hp).
    cbn [row_of percentageOfTotal]. unfold percentage_of. rewrite Hzero.
    apply mul_nonfinite, div_zero_nonfinite.
  - intros Hcount i p Hp.
    assert (Hin : p ∈ participants data)
      by (eapply list_elem_of_lookup_2; exact Hp).
    pose proof (count_zero_all_limited _ Hcount p Hin) as Hl.
    split; [exact Hl|].
    exists (row_of data p), (clamped_of data p).
    rewrite !list_lookup_fmap, Hp. split; [reflexivity|]. split; [reflexivity|].
    cbn [row_of adjustedDue]. unfold adjusted_of. rewrite Hl. reflexivity.
Qed.

Lemma scenarioD_degenerate : degenerate scenarioD.
Proof.
  right. split; [reflexivity|].
  intros H. apply eqb_eq in H. vm_compute in H. discriminate H.
Qed.

(** Scenario D, a valid and degenerate input: the handler does not fail; it
    returns two rows with finite adjusted dues 400 and 400, which sum to 800
    where the bill is 1000. *)
Lemma C2_counterexample :
  valid scenarioD
  /\ degenerate scenarioD
  /\ failed (onValid scenarioD initialState) = false
  /\ exists st',
       onValid scenarioD initialState = Normal st'
       /\ map adjustedDue (st_results st') = [ #400; #400 ]
       /\ sum (map adjustedDue (st_results st')) = #800.
Proof.
  split; [valid_decide|]. split; [exact scenarioD_degenerate|].
  rewrite onValid_rows. split; [reflexivity|].
  eexists. split; [reflexivity|]. cbn [st_results].
  split; [nums_decide | num_decide].
Qed.

(** The amended statement at scenario D, where nobody is unlimited. *)
Lemma C2_witness :
  exists st' limited_dues,
    onValid scenarioD initialState = Normal st'
    /\ failed (onValid scenarioD initialState) = false
    /\ limitedDues scenarioD #0 = Normal (limited_dues, clampingDelta scenarioD)
    /\ forall (i : nat) (p : Participant),
         participants scenarioD !! i = Some p ->
         limited p = true
         /\ exists r clamped,
              st_results st' !! i = Some r
              /\ limited_dues !! i = Some clamped
              /\ adjustedDue r = clamped.
Proof.
  destruct (C2_degenerate_rows_returned scenarioD initialState)
    as (st' & limited_dues & Hrun & Hok & _ & Hpass & _ & Hall).
  exists st', limited_dues. split; [exact Hrun|]. split; [exact Hok|].
  split; [exact Hpass|]. apply Hall. reflexivity.
Defined.

(** A household without income (a form value the schema rejects): the rows
    come back with [NaN] for percentage, due and adjusted due. *)
Example zeroIncome_rows :
  zero_income zeroIncome
  /\ exists st',
       onValid zeroIncome initialState = Normal st'
       /\ st_results st'
          = [ {| grossMonthlyIncome := #0; percentageOfTotal := NaN;
                 amountDue := NaN; adjustedDue := NaN |};
              {| grossMonthlyIncome := #0; percentageOfTotal := NaN;
                 amountDue := NaN; adjustedDue := NaN |} ].
Proof.
  split; [unfold zero_income; num_decide|].
  eexists. split; [apply onValid_rows|]. cbn [st_results]. rows_decide.
Qed.

(** * Further properties of the allocation *)

(** ** An inverted band clamps every limited participant *)

Lemma clamped_inverted_band (data : BillPay) (due : num) :
  nonzero (maximumLimit data) = true ->
  nonzero (minimumLimit data) = true ->
  (maximumLimit data <? minimumLimit data) = true ->
  isNaN due = false ->
  fst (clamp_spec data true due #0)
  = (if due >? maximumLimit data then maximumLimit data else minimumLimit data)
  /\ eqb (fst (clamp_spec data true due #0)) due = false.
Proof.
  intros HM Hm Hinv Hdue. unfold clamp_spec. rewrite HM, Hm. cbn [andb].
  destruct (lt_not_NaN _ _ Hinv) as [HMn Hmn].
  destruct (due >? maximumLimit data) eqn:Egt; cbn [fst].
  - split; [reflexivity|]. apply (lt_eqb_false (maximumLimit data) due), Egt.
  - assert (Hlt : (due <? minimumLimit data) = true).
    { apply le_lt_trans with (maximumLimit data); [|exact Hinv].
      apply lt_false_le; assumption. }
    rewrite Hlt. cbn [fst]. split; [reflexivity|].
    apply (lt_eqb_false due (minimumLimit data)), Hlt.
Qed.

(** X3. The schema does not compare the two limits.  With nonzero limits and
    [maximumLimit < minimumLimit], a limited participant whose proportional
    due is a number never keeps it: the adjusted due is [maximumLimit] when
    the due exceeds it and [minimumLimit] otherwise (the maximum is tested
    first).  A due that is [NaN] fails both comparisons and stays [NaN].  The
    statement rests on the comparisons alone and holds for every form
    value. *)
Theorem inverted_band_always_clamps
  (data : BillPay) (st : AppState) (i : nat) (p : Participant) :
  participants data !! i = Some p ->
  limited p = true ->
  nonzero (maximumLimit data) = true ->
  nonzero (minimumLimit data) = true ->
  (maximumLimit data <? minimumLimit data) = true ->
  exists st' r,
    onValid data st = Normal st'
    /\ st_results st' !! i = Some r
    /\ (isNaN (amountDue r) = false ->
        adjustedDue r
        = (if amountDue r >? maximumLimit data
           then maximumLimit data else minimumLimit data)
        /\ eqb (adjustedDue r) (amountDue r) = false)
    /\ (isNaN (amountDue r) = true -> isNaN (adjustedDue r) = true).
Proof.
  intros Hi Hl HM Hm Hinv.
  eexists. exists (row_of data p). split; [apply onValid_rows|]. cbn [st_results].
  rewrite list_lookup_fmap, Hi. split; [reflexivity|].
  cbn [row_of adjustedDue amountDue]. unfold adjusted_of, clamped_of.
  rewrite Hl. split.
  - intros Hdue. apply clamped_inverted_band; assumption.
  - intros Hdue. rewrite (clamped_NaN data _ Hdue). exact Hdue.
Qed.

Lemma inverted_band_always_clamps_witness :
  exists st' r,
    onValid invertedBand initialState = Normal st'
    /\ st_results st' !! 0%nat = Some r
    /\ (isNaN (amountDue r) = false ->
        adjustedDue r
        = (if amountDue r >? maximumLimit invertedBand
           then maximumLimit invertedBand else minimumLimit invertedBand)
        /\ eqb (adjustedDue r) (amountDue r) = false)
    /\ (isNaN (amountDue r) = true -> isNaN (adjustedDue r) = true).
Proof.
  apply (inverted_band_always_clamps invertedBand initialState 0
           {| name := "A"; limited := true; income := salary #30000 |});
    vm_compute; reflexivity.
Defined.

(** The inverted band of [invertedBand]: A's due of 500 exceeds the maximum
    of 200 and is cut to it. *)
Example invertedBand_rows :
  exists st',
    onValid invertedBand initialState = Normal st'
    /\ map amountDue (st_results st') = [ #500; #500 ]
    /\ map adjustedDue (st_results st') = [ #200; #800 ].
Proof.
  eexists. split; [apply onValid_rows|]. cbn [st_results].
  split; nums_decide.
Qed.

(** * The wizard *)

(** ** The Result step shows a calculation of a validated form value *)

Section Wizard.

Lemma schema_iff_no_errors (data : BillPay) :
  BillPay_schema data = true
  <-> err_amount (resolverErrors data) = false
      /\ err_maximumLimit (resolverErrors data) = false
      /\ err_minimumLimit (resolverErrors data) = false
      /\ err_participants (resolverErrors data) = false.
Proof.
  unfold BillPay_schema, resolverErrors.
  cbn [err_amount err_maximumLimit err_minimumLimit err_participants].
  destruct (amount data >? #0), (isNaN (maximumLimit data)),
    (isNaN (minimumLimit data)), (forallb Participant_schema (participants data));
    cbn [negb andb]; intuition congruence.
Qed.

Lemma handleSubmit_valid (data : BillPay) (st : AppState) :
  BillPay_schema data = true ->
  handleSubmit data st
  = Normal {| st_activeStep := 2;
              st_completed := <[0%nat := true]> (<[1%nat := true]> ∅);
              st_results := map (row_of data) (participants data);
              st_totalGross := totalGross data |}.
Proof. intros Hs. unfold handleSubmit. rewrite Hs. apply onValid_rows. Qed.

Lemma handleSubmit_invalid (data : BillPay) (st : AppState) :
  BillPay_schema data = false ->
  handleSubmit data st = Normal (onInvalid (resolverErrors data) st).
Proof. intros Hs. unfold handleSubmit. rewrite Hs. reflexivity. Qed.

Lemma onInvalid_keeps (errors : FieldErrors) (st : AppState) :
  st_completed (onInvalid errors st) = st_completed st
  /\ st_results (onInvalid errors st) = st_results st
  /\ st_totalGross (onInvalid errors st) = st_totalGross st
  /\ (st_activeStep (onInvalid errors st) = st_activeStep st
      \/ st_activeStep (onInvalid errors st) = 0%nat).
Proof.
  unfold onInvalid.
  destruct (err_amount errors || err_maximumLimit errors || err_minimumLimit errors);
    cbn; auto.
Qed.

Lemma dispatch_rejected (u : UI) (e : Event) :
  (e = Submit -> BillPay_schema (ui_form u) = false) ->
  st_results (ui_state (dispatch u e)) = st_results (ui_state u)
  /\ st_totalGross (ui_state (dispatch u e)) = st_totalGross (ui_state u)
  /\ st_completed (ui_state (dispatch u e)) = st_completed (ui_state u).
Proof.
  intros Hrej. destruct e as [index| |data| |index|]; cbn [dispatch].
  - destruct ((index <? length STEPS)%nat
              && negb (stepDisabled (st_completed (ui_state u)) index));
      repeat split.
  - repeat split.
  - repeat split.
  - repeat split.
  - repeat split.
  - rewrite (handleSubmit_invalid _ _ (Hrej eq_refl)). cbn [ui_state].
    destruct (onInvalid_keeps (resolverErrors (ui_form u)) (ui_state u))
      as (Hc & Hr & Ht & _).
    repeat split; assumption.
Qed.

Lemma dispatch_accepted (u : UI) :
  BillPay_schema (ui_form u) = true ->
  ui_state (dispatch u Submit)
  = {| st_activeStep := 2;
       st_completed := <[0%nat := true]> (<[1%nat := true]> ∅);
       st_results := map (row_of (ui_form u)) (participants (ui_form u));
       st_totalGross := totalGross (ui_form u) |}.
Proof.
  intros Hs. cbn [dispatch]. rewrite (handleSubmit_valid _ _ Hs). reflexivity.
Qed.

(** Either every submit was rejected and the table is the one the run
    started with, or the table is the one of the last accepted submit. *)
Lemma run_last_accepted (events : list Event) :
  forall u,
    (every_submit_rejected u events
     /\ st_results (ui_state (run events u)) = st_results (ui_state u)
     /\ st_totalGross (ui_state (run events u)) = st_totalGross (ui_state u)
     /\ st_completed (ui_state (run events u)) = st_completed (ui_state u))
    \/ (exists before after,
          events = before ++ Submit :: after
          /\ BillPay_schema (ui_form (run before u)) = true
          /\ every_submit_rejected (run (before ++ [Submit]) u) after
          /\ st_results (ui_state (run events u))
             = map (row_of (ui_form (run before u)))
                   (participants (ui_form (run before u)))
          /\ st_totalGross (ui_state (run events u))
             = totalGross (ui_form (run before u))
          /\ st_completed (ui_state (run events u))
             = <[0%nat := true]> (<[1%nat := true]> ∅)).
Proof.
  induction events as [|e events IH]; intros u.
  - left. split; [|repeat split].
    intros before after Heq. destruct before; discriminate Heq.
  - change (run (e :: events) u) with (run events (dispatch u e)).
    destruct (IH (dispatch u e))
      as [(Hrej & Hr & Ht & Hc)
         | (before & after & Heq & Hs & Hrej & Hr & Ht & Hc)].
    + assert (Hcase : (e = Submit /\ BillPay_schema (ui_form u) = true)
                      \/ (e = Submit -> BillPay_schema (ui_form u) = false)).
      { destruct e; try (right; discriminate).
        destruct (BillPay_schema (ui_form u)); [left | right]; auto. }
      destruct Hcase as [[-> Hs] | Hno].
      * right. exists [], events. split; [reflexivity|].
        split; [exact Hs|]. split; [exact Hrej|].
        rewrite Hr, Ht, Hc, (dispatch_accepted u Hs). repeat split.
      * left. destruct (dispatch_rejected u e Hno) as (Hr' & Ht' & Hc').
        rewrite Hr, Ht, Hc. split; [|repeat split; assumption].
        intros before after Heq. destruct before as [|b before].
        -- injection Heq as -> _. apply Hno. reflexivity.
        -- injection Heq as -> Heq.
           change (run (b :: before) u) with (run before (dispatch u b)).
           exact (Hrej before after Heq).
    + right. exists (e :: before), after. subst events.
      split; [reflexivity|]. split; [exact Hs|]. split; [exact Hrej|].
      split; [exact Hr|]. split; [exact Ht | exact Hc].
Qed.

Lemma dispatch_step (u : UI) (e : Event) :
  step_invariant (ui_state u) -> step_invariant (ui_state (dispatch u e)).
Proof.
  unfold step_invariant. intros [Hstep Hresult].
  destruct e as [index| |data| |index|]; cbn [dispatch].
  - destruct ((index <? length STEPS)%nat
              && negb (stepDisabled (st_completed (ui_state u)) index)) eqn:E;
      [|split; assumption].
    apply andb_prop in E as [Hlt Hen]. apply Nat.ltb_lt in Hlt.
    cbn [length STEPS] in Hlt. cbn [ui_state with_activeStep st_activeStep st_completed].
    split; [lia|]. intros ->. apply negb_true_iff. exact Hen.
  - cbn. split; [lia | discriminate].
  - split; assumption.
  - split; assumption.
  - split; assumption.
  - destruct (BillPay_schema (ui_form u)) eqn:Hs.
    + rewrite (handleSubmit_valid _ _ Hs). cbn. split; [lia | reflexivity].
    + rewrite (handleSubmit_invalid _ _ Hs). cbn [ui_state].
      destruct (onInvalid_keeps (resolverErrors (ui_form u)) (ui_state u))
        as (Hc & _ & _ & Hstep').
      rewrite Hc. destruct Hstep' as [-> | ->]; [split; assumption|].
      split; [lia | discriminate].
Qed.

Lemma run_step (events : list Event) :
  forall u, step_invariant (ui_state u) ->
            step_invariant (ui_state (run events u)).
Proof.
  induction events as [|e events IH]; intros u Hinv; [exact Hinv|].
  cbn [run fold_left]. apply IH, dispatch_step, Hinv.
Qed.

End Wizard.

(** X6. Whatever the user does from the initial screen (step buttons, Next,
    edits, adding and deleting participants, submitting), the active step is
    one of the three, and one of two things holds.  Either no submit so far
    found a form value the schema accepts: then the table is empty, the
    household income is 0, the Result button is disabled and the Result step
    is not active.  Or there was such a submit: then the table and the
    household income held are the ones [onValid] computed at the last of
    them, from the form value the wizard held at that moment, and the Result
    button is enabled. *)
Theorem result_step_shows_validated_calculation (events : list Event) :
  let st := ui_state (run events initialUI) in
  (st_activeStep st <= 2)%nat
  /\ ((every_submit_rejected initialUI events
       /\ st_results st = []
       /\ st_totalGross st = #0
       /\ stepDisabled (st_completed st) 2 = true
       /\ st_activeStep st <> 2%nat)
      \/ (exists before after st',
            events = before ++ Submit :: after
            /\ BillPay_schema (ui_form (run before initialUI)) = true
            /\ every_submit_rejected (run (before ++ [Submit]) initialUI) after
            /\ onValid (ui_form (run before initialUI))
                       (ui_state (run before initialUI)) = Normal st'
            /\ st_results st = st_results st'
            /\ st_totalGross st = st_totalGross st'
            /\ stepDisabled (st_completed st) 2 = false)).
Proof.
  intros st.
  assert (Hinit : step_invariant (ui_state initialUI))
    by (split; [cbn; lia | discriminate]).
  destruct (run_step events initialUI Hinit) as [Hstep Hresult].
  fold st in Hstep, Hresult. split; [exact Hstep|].
  destruct (run_last_accepted events initialUI)
    as [(Hrej & Hr & Ht & Hc)
       | (before & after & Heq & Hs & Hrej & Hr & Ht & Hc)];
    fold st in Hr, Ht, Hc.
  - left. split; [exact Hrej|]. split; [exact Hr|]. split; [exact Ht|].
    assert (Hdis : stepDisabled (st_completed st) 2 = true)
      by (rewrite Hc; reflexivity).
    split; [exact Hdis|]. intros H2. rewrite (Hresult H2) in Hdis.
    discriminate Hdis.
  - right. exists before, after. eexists.
    split; [exact Heq|]. split; [exact Hs|]. split; [exact Hrej|].
    split; [apply onValid_rows|]. cbn [st_results st_totalGross].
    split; [exact Hr|]. split; [exact Ht|]. rewrite Hc. reflexivity.
Qed.

(** The default form has a bill amount of 0, which the schema rejects; with
    the amount set to 1000 it is accepted.  After a rejected submit, an
    edit, an accepted submit and a click on Next, the table is the one of
    scenario A's form value. *)
Example wizard_sample :
  let st := ui_state (run [Submit; FieldChange scenarioA; Submit; NextClick]
                          initialUI) in
  st_activeStep st = 1%nat
  /\ map name (participants (ui_form (run [Submit; FieldChange scenarioA]
                                          initialUI))) = [ "A"; "B" ]
  /\ map adjustedDue (st_results st) = [ #500; #500 ].
Proof.
  cbn [run fold_left dispatch].
  rewrite (handleSubmit_invalid (ui_form initialUI) (ui_state initialUI))
    by (vm_compute; reflexivity).
  cbn [ui_form ui_state].
  rewrite (handleSubmit_valid scenarioA) by (vm_compute; reflexivity).
  cbn [ui_state with_activeStep st_activeStep st_results].
  split; [reflexivity|]. split; [reflexivity|]. nums_decide.
Qed.

(** ** A participant just added blocks the calculation *)

Lemma newParticipant_rejected (ps : list Participant) :
  Participant_schema (newParticipant ps) = false.
Proof. reflexivity. Qed.

Lemma schema_after_add (data : BillPay) :
  BillPay_schema (with_participants (addParticipant (participants data)) data)
  = false.
Proof.
  unfold BillPay_schema, with_participants, addParticipant.
  cbn [amount maximumLimit minimumLimit participants].
  rewrite forallb_app. cbn [forallb]. rewrite newParticipant_rejected.
  rewrite andb_false_r. apply andb_false_r.
Qed.

(** X7. "Add Participant" appends a participant with annual salary 0, which
    the schema rejects: a submit right after it never calculates.  Table,
    household income and completion marks stay as they were, and the wizard
    jumps to the Settings step exactly when a bill setting is invalid too
    (otherwise it stays on its step). *)
Theorem submit_after_add_never_calculates (u : UI) :
  let u' := run [AddParticipantClick; Submit] u in
  st_results (ui_state u') = st_results (ui_state u)
  /\ st_totalGross (ui_state u') = st_totalGross (ui_state u)
  /\ st_completed (ui_state u') = st_completed (ui_state u)
  /\ st_activeStep (ui_state u')
     = (if negb (amount (ui_form u) >? #0)
           || isNaN (maximumLimit (ui_form u))
           || isNaN (minimumLimit (ui_form u))
        then 0%nat else st_activeStep (ui_state u))
  /\ length (participants (ui_form u')) = S (length (participants (ui_form u))).
Proof.
  cbn [run fold_left dispatch ui_form ui_state].
  rewrite (handleSubmit_invalid _ _ (schema_after_add (ui_form u))).
  cbn [ui_state ui_form]. unfold onInvalid, resolverErrors.
  cbn [err_amount err_maximumLimit err_minimumLimit with_participants
       amount maximumLimit minimumLimit participants].
  destruct (negb (amount (ui_form u) >? #0)
            || isNaN (maximumLimit (ui_form u))
            || isNaN (minimumLimit (ui_form u)));
    cbn [st_results st_totalGross st_completed st_activeStep];
    repeat split; unfold addParticipant; rewrite length_app; cbn [length]; lia.
Qed.

(** ** Deleting and adding participants *)

Lemma array_filter_from_delete (index : nat) (l : list Participant) :
  forall k,
    array_filter_from (fun _ i => negb (i =? index)%nat) k l
    = if (index <? k)%nat then l
      else take (index - k) l ++ drop (S (index - k)) l.
Proof.
  induction l as [|x l IH]; intros k.
  - destruct (index <? k)%nat; [reflexivity|]. cbn [array_filter_from].
    rewrite take_nil, drop_nil. reflexivity.
  - cbn [array_filter_from]. rewrite IH.
    destruct (Nat.ltb_spec index k) as [Hlt | Hge].
    + rewrite (proj2 (Nat.eqb_neq k index)) by lia.
      rewrite (proj2 (Nat.ltb_lt index (S k))) by lia. reflexivity.
    + destruct (Nat.eqb_spec k index) as [-> | Hne].
      * rewrite (proj2 (Nat.ltb_lt index (S index))) by lia.
        rewrite Nat.sub_diag. reflexivity.
      * rewrite (proj2 (Nat.ltb_ge index (S k))) by lia. cbn [negb].
        replace (index - k)%nat with (S (index - S k)) by lia. reflexivity.
Qed.

Lemma deleteParticipant_lookup (index : nat) (ps : list Participant) :
  (forall j, (j < index)%nat -> deleteParticipant index ps !! j = ps !! j)
  /\ (forall j, (index <= j)%nat -> deleteParticipant index ps !! j = ps !! S j)
  /\ length (deleteParticipant index ps)
     = (if (index <? length ps)%nat then length ps - 1 else length ps)%nat.
Proof.
  assert (Heq : deleteParticipant index ps = take index ps ++ drop (S index) ps).
  { unfold deleteParticipant, array_filter.
    rewrite array_filter_from_delete. cbn [Nat.ltb Nat.leb].
    rewrite Nat.sub_0_r. reflexivity. }
  rewrite Heq. split; [|split].
  - intros j Hj. destruct (Nat.lt_ge_cases j (length ps)) as [Hlt | Hge].
    + rewrite lookup_app_l by (rewrite length_take; lia).
      apply lookup_take_lt. exact Hj.
    + rewrite (proj2 (lookup_ge_None ps j)) by exact Hge.
      apply lookup_ge_None. rewrite length_app, length_take, length_drop. lia.
  - intros j Hj. destruct (Nat.lt_ge_cases index (length ps)) as [Hlt | Hge].
    + rewrite lookup_app_r by (rewrite length_take; lia).
      rewrite length_take, lookup_drop. f_equal. lia.
    + rewrite (proj2 (lookup_ge_None ps (S j))) by lia.
      apply lookup_ge_None. rewrite length_app, length_take, length_drop. lia.
  - rewrite length_app, length_take, length_drop.
    destruct (Nat.ltb_spec index (length ps)); lia.
Qed.

(** X8. The delete button of the participant at [index] removes exactly that
    participant: the ones before it stay where they are, the ones behind it
    move up by one, in order; an index outside the list changes nothing. *)
Theorem deleteParticipant_removes_index (index : nat) (ps : list Participant) :
  deleteParticipant index ps = take index ps ++ drop (S index) ps
  /\ (forall j, (j < index)%nat -> deleteParticipant index ps !! j = ps !! j)
  /\ (forall j, (index <= j)%nat -> deleteParticipant index ps !! j = ps !! S j)
  /\ length (deleteParticipant index ps)
     = (if (index <? length ps)%nat then length ps - 1 else length ps)%nat.
Proof.
  split; [|apply deleteParticipant_lookup].
  unfold deleteParticipant, array_filter.
  rewrite array_filter_from_delete. cbn [Nat.ltb Nat.leb].
  rewrite Nat.sub_0_r. reflexivity.
Qed.

(** X9. "Add Participant" keeps the participants there are and puts one
    unlimited salaried participant with salary 0, named after its position,
    behind them; deleting that participant gives the list back. *)
Theorem add_then_delete_restores (ps : list Participant) :
  (forall j p, ps !! j = Some p -> addParticipant ps !! j = Some p)
  /\ addParticipant ps !! length ps
     = Some {| name := "Participant " +:+ pretty (length ps + 1)%nat;
               limited := false;
               income := salary #0 |}
  /\ length (addParticipant ps) = S (length ps)
  /\ deleteParticipant (length ps) (addParticipant ps) = ps.
Proof.
  unfold addParticipant. split; [|split; [|split]].
  - intros j p Hj. apply lookup_app_l_Some. exact Hj.
  - rewrite lookup_app_r by lia. rewrite Nat.sub_diag. reflexivity.
  - rewrite length_app. cbn [length]. lia.
  - unfold deleteParticipant, array_filter.
    rewrite array_filter_from_delete. cbn [Nat.ltb Nat.leb].
    rewrite Nat.sub_0_r, take_app_length, drop_app_ge by lia.
    replace (S (length ps) - length ps)%nat with 1%nat by lia.
    cbn [drop]. apply app_nil_r.
Qed.

(** ** A form without participants *)

(** X10. Nothing keeps the last participant from being deleted, and the
    schema accepts an empty participant list: with valid bill settings, a
    submit after deleting the only participant moves to the Result step with
    an empty table and a household income of 0, so nothing of the bill is
    allocated and no error is shown. *)
Theorem empty_form_is_calculated (u : UI) (p : Participant) :
  participants (ui_form u) = [p] ->
  (amount (ui_form u) >? #0) = true ->
  isNaN (maximumLimit (ui_form u)) = false ->
  isNaN (minimumLimit (ui_form u)) = false ->
  let u' := run [DeleteParticipantClick 0; Submit] u in
  participants (ui_form u') = []
  /\ st_activeStep (ui_state u') = 2%nat
  /\ st_results (ui_state u') = []
  /\ st_totalGross (ui_state u') = #0
  /\ stepDisabled (st_completed (ui_state u')) 2 = false.
Proof.
  intros Hps Ha HM Hm.
  cbn [run fold_left dispatch ui_form ui_state]. rewrite Hps.
  change (deleteParticipant 0 [p]) with (@nil Participant).
  assert (Hs : BillPay_schema (with_participants [] (ui_form u)) = true).
  { unfold BillPay_schema, with_participants.
    cbn [amount maximumLimit minimumLimit participants forallb].
    rewrite Ha, HM, Hm. reflexivity. }
  rewrite (handleSubmit_valid _ _ Hs). cbn. repeat split.
Qed.

Lemma empty_form_is_calculated_witness :
  let u := {| ui_state := initialState;
              ui_form := with_participants
                           [ {| name := "A"; limited := false;
                                income := salary #30000 |} ] scenarioA |} in
  let u' := run [DeleteParticipantClick 0; Submit] u in
  participants (ui_form u') = []
  /\ st_activeStep (ui_state u') = 2%nat
  /\ st_results (ui_state u') = []
  /\ st_totalGross (ui_state u') = #0
  /\ stepDisabled (st_completed (ui_state u')) 2 = false.
Proof.
  apply (empty_form_is_calculated _
           {| name := "A"; limited := false; income := salary #30000 |});
    reflexivity.
Defined.

(** * Display of amounts *)

(** ** Strings *)

Section Strings.

Lemma string_app_cons (c : ascii) (s t : string) :
  String c s +:+ t = String c (s +:+ t).
Proof. reflexivity. Qed.

Lemma string_app_nil_l (t : string) : "" +:+ t = t.
Proof. reflexivity. Qed.

Lemma string_length_app (s t : string) :
  String.length (s +:+ t) = (String.length s + String.length t)%nat.
Proof.
  induction s as [|c s IH]; [reflexivity|].
  rewrite string_app_cons. cbn [String.length]. rewrite IH. reflexivity.
Qed.

Lemma all_digits_app (s t : string) :
  all_digits (s +:+ t) = all_digits s && all_digits t.
Proof.
  induction s as [|c s IH]; [reflexivity|].
  rewrite string_app_cons. cbn [all_digits]. rewrite IH. apply andb_assoc.
Qed.

Lemma substring_split (s : string) :
  forall n, (n <= String.length s)%nat ->
    String.substring 0 n s
    +:+ String.substring n (String.length s - n) s = s.
Proof.
  induction s as [|c s IH]; intros n Hn.
  - cbn in Hn. replace n with 0%nat by lia. reflexivity.
  - destruct n as [|n].
    + cbn [String.substring String.length]. rewrite string_app_nil_l.
      rewrite Nat.sub_0_r. f_equal.
      specialize (IH 0%nat (Nat.le_0_l _)).
      cbn [String.substring] in IH. rewrite Nat.sub_0_r in IH.
      destruct s; exact IH.
    + cbn [String.substring String.length] in *.
      rewrite string_app_cons. f_equal. apply IH. lia.
Qed.

Lemma substring_length (s : string) :
  forall n m, (n + m <= String.length s)%nat ->
    String.length (String.substring n m s) = m.
Proof.
  induction s as [|c s IH]; intros n m Hnm.
  - cbn in Hnm. replace n with 0%nat by lia. replace m with 0%nat by lia.
    reflexivity.
  - destruct n as [|n]; cbn [String.substring].
    + destruct m as [|m]; [reflexivity|]. cbn [String.length] in *.
      f_equal. apply IH. lia.
    + cbn [String.length] in Hnm. apply IH. lia.
Qed.

End Strings.

(** ** The digits of [toFixed] *)

Section FixedDigits.

Lemma pretty_N_char_digit (x : N) : is_digit (pretty_N_char x) = true.
Proof. unfold pretty_N_char. repeat case_match; reflexivity. Qed.

Lemma pretty_N_go_digits (x : N) :
  forall s, all_digits s = true -> all_digits (pretty_N_go x s) = true.
Proof.
  induction (N.lt_wf_0 x) as [x _ IH]. intros s Hs.
  destruct (N.eq_0_gt_0_cases x) as [-> | Hpos].
  - rewrite pretty_N_go_0. exact Hs.
  - rewrite pretty_N_go_step by exact Hpos.
    apply IH; [apply N.div_lt; [exact Hpos | reflexivity]|].
    cbn [all_digits]. rewrite pretty_N_char_digit, Hs. reflexivity.
Qed.

Lemma pretty_N_go_length (x : N) :
  forall s, (String.length s <= String.length (pretty_N_go x s))%nat.
Proof.
  induction (N.lt_wf_0 x) as [x _ IH]. intros s.
  destruct (N.eq_0_gt_0_cases x) as [-> | Hpos].
  - rewrite pretty_N_go_0. reflexivity.
  - rewrite pretty_N_go_step by exact Hpos.
    etransitivity; [|apply IH, N.div_lt; [exact Hpos | reflexivity]].
    cbn [String.length]. lia.
Qed.

Lemma pretty_N_digits (x : N) :
  all_digits (pretty x) = true /\ (1 <= String.length (pretty x))%nat.
Proof.
  unfold pretty, pretty_N. destruct (decide (x = 0%N)) as [-> | Hne].
  - split; [reflexivity | cbn; lia].
  - split; [apply pretty_N_go_digits; reflexivity|].
    rewrite pretty_N_go_step by lia.
    etransitivity; [|apply pretty_N_go_length]. cbn [String.length]. lia.
Qed.

Lemma zeros_digits (k : nat) :
  all_digits (zeros k) = true /\ String.length (zeros k) = k.
Proof.
  induction k as [|k [IHd IHl]]; [split; reflexivity|].
  cbn [zeros all_digits String.length]. rewrite IHd, IHl. split; reflexivity.
Qed.

Lemma pad_to_three_digits (m : string) :
  all_digits m = true -> (1 <= String.length m)%nat ->
  all_digits (pad_to_three m) = true
  /\ (3 <= String.length (pad_to_three m))%nat.
Proof.
  intros Hd Hl. unfold pad_to_three.
  destruct (Nat.leb_spec (String.length m) 2) as [Hle | Hgt].
  - rewrite all_digits_app, string_length_app, Hd.
    destruct (zeros_digits (3 - String.length m)) as [-> ->].
    split; [reflexivity | lia].
  - split; [exact Hd | lia].
Qed.

(** The text of a padded digit string with its point: an integer part,
    the point, two decimals. *)
Lemma point_before_last_two_shape (m : string) :
  all_digits m = true -> (3 <= String.length m)%nat ->
  exists I F,
    m = I +:+ F
    /\ point_before_last_two m = I +:+ "." +:+ F
    /\ all_digits I = true /\ (1 <= String.length I)%nat
    /\ all_digits F = true /\ String.length F = 2%nat.
Proof.
  intros Hd Hl. unfold point_before_last_two.
  set (k := String.length m) in *.
  exists (String.substring 0 (k - 2) m), (String.substring (k - 2) 2 m).
  assert (Hsplit : m = String.substring 0 (k - 2) m
                       +:+ String.substring (k - 2) 2 m).
  { pose proof (substring_split m (k - 2)) as H. fold k in H.
    replace (k - (k - 2))%nat with 2%nat in H by lia.
    symmetry. apply H. lia. }
  split; [exact Hsplit|]. split; [reflexivity|].
  rewrite Hsplit, all_digits_app in Hd. apply andb_prop in Hd as [HI HF].
  split; [exact HI|]. split.
  - rewrite substring_length by (fold k; lia). lia.
  - split; [exact HF|]. apply substring_length. fold k. lia.
Qed.

End FixedDigits.

(** ** Where the pattern matches in a run of digits *)

Section Grouping.

Lemma is_digit_word (c : ascii) : is_digit c = true -> is_word c = true.
Proof.
  destruct c as [[] [] [] [] [] [] [] []]; intros H;
    try discriminate H; reflexivity.
Qed.

Lemma digit_groups_nondigit (s : string) :
  starts_with_digit s = false -> digit_groups s = false.
Proof.
  destruct s as [|a [|b [|c r]]]; cbn [starts_with_digit digit_groups];
    intros H; try reflexivity.
  rewrite H. reflexivity.
Qed.

Lemma digit_groups_run (n : nat) :
  forall D rest,
    String.length D = n ->
    all_digits D = true ->
    starts_with_digit rest = false ->
    digit_groups (D +:+ rest) = (0 <? n)%nat && (n mod 3 =? 0)%nat.
Proof.
  induction n as [n IH] using lt_wf_ind. intros D rest Hlen Hd Hrest.
  destruct D as [|a [|b [|c D']]].
  - cbn in Hlen. subst n. rewrite string_app_nil_l.
    apply digit_groups_nondigit, Hrest.
  - cbn in Hlen. subst n. rewrite string_app_cons, string_app_nil_l.
    destruct rest as [|x [|y r]]; cbn [digit_groups]; try reflexivity.
    cbn [starts_with_digit] in Hrest. rewrite Hrest, andb_false_r. reflexivity.
  - cbn in Hlen. subst n. rewrite !string_app_cons, string_app_nil_l.
    destruct rest as [|x r]; cbn [digit_groups]; try reflexivity.
    cbn [starts_with_digit] in Hrest. rewrite Hrest, andb_false_r. reflexivity.
  - cbn [String.length] in Hlen. cbn [all_digits] in Hd.
    apply andb_prop in Hd as [Ha Hd]. apply andb_prop in Hd as [Hb Hd].
    apply andb_prop in Hd as [Hc Hd].
    rewrite !string_app_cons. cbn [digit_groups]. rewrite Ha, Hb, Hc. cbn [andb].
    assert (Hn : n = (3 + String.length D')%nat) by lia.
    assert (Hmod : (n mod 3 = String.length D' mod 3)%nat).
    { rewrite Hn. replace (3 + String.length D')%nat
        with (String.length D' + 1 * 3)%nat by lia.
      apply Nat.Div0.mod_add. }
    rewrite Hmod. rewrite (proj2 (Nat.ltb_lt 0 n)) by lia. cbn [andb].
    destruct D' as [|d D''].
    + rewrite string_app_nil_l, Hrest. reflexivity.
    + rewrite (IH (String.length (String d D''))) with (D := String d D'')
        by (try reflexivity; try assumption; cbn [String.length] in *; lia).
      rewrite string_app_cons. cbn [starts_with_digit].
      cbn [all_digits] in Hd. apply andb_prop in Hd as [Hd0 _].
      rewrite Hd0. cbn [negb orb String.length Nat.ltb Nat.leb]. reflexivity.
Qed.

Lemma insert_commas_from_nondigit (rest : string) (prev : option ascii) :
  starts_with_digit rest = false ->
  insert_commas_from prev rest = insert_commas rest.
Proof.
  intros Hrest. unfold insert_commas.
  destruct rest as [|c r]; cbn [insert_commas_from]; unfold comma_here;
    rewrite (digit_groups_nondigit _ Hrest), !andb_false_r; reflexivity.
Qed.

Lemma insert_commas_from_digits (D : string) :
  forall rest prev,
    all_digits D = true ->
    starts_with_digit rest = false ->
    insert_commas_from prev (D +:+ rest)
    = (if from_option is_word false prev
          && ((0 <? String.length D)%nat && (String.length D mod 3 =? 0)%nat)
       then "," else "")
      +:+ group_thousands D +:+ insert_commas rest.
Proof.
  induction D as [|c D IH]; intros rest prev Hd Hrest.
  - rewrite string_app_nil_l. cbn [String.length Nat.ltb Nat.leb andb].
    rewrite andb_false_r. cbn [group_thousands]. rewrite !string_app_nil_l.
    apply insert_commas_from_nondigit, Hrest.
  - cbn [all_digits] in Hd. apply andb_prop in Hd as [Hc Hd].
    rewrite string_app_cons. cbn [insert_commas_from].
    rewrite (IH rest (Some c) Hd Hrest). cbn [from_option].
    rewrite (is_digit_word c Hc). cbn [andb].
    unfold comma_here, not_word_boundary.
    rewrite (is_digit_word c Hc).
    rewrite <- string_app_cons.
    rewrite (digit_groups_run _ (String c D) rest eq_refl)
      by (try assumption; cbn [all_digits]; rewrite Hc, Hd; reflexivity).
    cbn [group_thousands].
    destruct ((0 <? String.length D)%nat && (String.length D mod 3 =? 0)%nat);
      destruct (from_option is_word false prev); cbn [Bool.eqb andb];
      destruct ((0 <? String.length (String c D))%nat
                && (String.length (String c D) mod 3 =? 0)%nat);
      reflexivity.
Qed.

Lemma insert_commas_decimals (F : string) :
  String.length F = 2%nat ->
  insert_commas ("." +:+ F) = "." +:+ F.
Proof.
  destruct F as [|f1 [|f2 [|f3 F]]]; intros H; try discriminate H.
  change ("." +:+ String f1 (String f2 ""))
    with (String "."%char (String f1 (String f2 ""))).
  unfold insert_commas. cbn [insert_commas_from].
  unfold comma_here.
  rewrite (digit_groups_nondigit (String "."%char _)) by reflexivity.
  cbn [digit_groups]. rewrite !andb_false_r. reflexivity.
Qed.

End Grouping.

(** ** The formatted amount *)

Lemma insert_commas_fixed (negative : bool) (I F : string) :
  all_digits I = true -> String.length F = 2%nat ->
  insert_commas ((if negative then "-" else "") +:+ I +:+ "." +:+ F)
  = (if negative then "-" else "") +:+ group_thousands I +:+ "." +:+ F.
Proof.
  intros HI HF. unfold insert_commas. destruct negative.
  - change ("-" +:+ I +:+ "." +:+ F) with (String "-"%char (I +:+ "." +:+ F)).
    cbn [insert_commas_from]. unfold comma_here.
    rewrite (digit_groups_nondigit (String "-"%char _)) by reflexivity.
    rewrite andb_false_r.
    rewrite (insert_commas_from_digits I ("." +:+ F) (Some "-"%char) HI)
      by (destruct F; reflexivity).
    cbn [from_option andb]. change (is_word "-"%char) with false. cbn [andb].
    rewrite (insert_commas_decimals F HF). reflexivity.
  - rewrite string_app_nil_l.
    rewrite (insert_commas_from_digits I ("." +:+ F) None HI)
      by (destruct F; reflexivity).
    cbn [from_option andb]. rewrite (insert_commas_decimals F HF). reflexivity.
Qed.

Lemma nearest_hundredth_bounds (a : Qc) :
  (0 <= a)%Qc ->
  (0 <= nearest_hundredth a)%Z
  /\ (inject_Z (nearest_hundredth a) <= this a * inject_Z 100 + Qmake 1 2)%Q
  /\ (this a * inject_Z 100 + Qmake 1 2 < inject_Z (nearest_hundredth a) + 1)%Q.
Proof.
  intros Ha. unfold nearest_hundredth.
  set (x := (a * Q2Qc (inject_Z 100) + Q2Qc (Qmake 1 2))%Qc).
  assert (Hx : (this x == this a * inject_Z 100 + Qmake 1 2)%Q).
  { unfold x. cbn [this Qcplus Qcmult Q2Qc]. rewrite !Qred_correct. reflexivity. }
  split; [|split].
  - change 0%Z with (Qfloor 0). apply Qfloor_resp_le. rewrite Hx.
    unfold Qcle in Ha. cbn [this Q2Qc] in Ha. rewrite Qred_correct in Ha.
    assert (H100 : (0 <= this a * inject_Z 100)%Q).
    { apply Qmult_le_0_compat; [exact Ha | discriminate]. }
    lra.
  - rewrite <- Hx. apply Qfloor_le.
  - rewrite <- Hx. replace (inject_Z (Qfloor x) + 1)%Q
      with (inject_Z (Qfloor x + 1)).
    + apply Qlt_floor.
    + rewrite inject_Z_plus. reflexivity.
Qed.

(** X11. For a finite amount of magnitude below [10^21] the displayed text
    is the dollar sign, a minus sign for a negative amount (behind the dollar
    sign), the integer digits grouped in threes by commas, a point and two
    decimals.  The digits are those of [n], the integer nearest to 100 times
    the magnitude (ties upwards), filled up to three digits: the text shows
    the amount to within half a cent. *)
Theorem formatDollarAmount_groups_thousands (q : Qc) :
  let negative := Qcltb q 0 in
  let a := if negative then (- q)%Qc else q in
  let n := nearest_hundredth a in
  (a < Q2Qc (inject_Z (10 ^ 21)))%Qc ->
  exists I F : string,
    pad_to_three (pretty (Z.to_N n)) = I +:+ F
    /\ all_digits I = true /\ (1 <= String.length I)%nat
    /\ all_digits F = true /\ String.length F = 2%nat
    /\ (0 <= n)%Z
    /\ (inject_Z n <= this a * inject_Z 100 + Qmake 1 2)%Q
    /\ (this a * inject_Z 100 + Qmake 1 2 < inject_Z n + 1)%Q
    /\ toFixed2 (Fin q)
       = Some ((if negative then "-" else "") +:+ I +:+ "." +:+ F)
    /\ formatDollarAmount (Fin q)
       = Some ("$" +:+ (if negative then "-" else "")
               +:+ group_thousands I +:+ "." +:+ F).
Proof.
  intros negative a n Hlt.
  assert (Ha : (0 <= a)%Qc).
  { unfold a, negative. destruct (Qcltb q 0) eqn:E.
    - apply Qcltb_lt, Qclt_le_weak, Qcopp_le_compat in E. exact E.
    - apply Qcnot_lt_le. rewrite <- Qcltb_lt. congruence. }
  destruct (nearest_hundredth_bounds a Ha) as (Hn0 & Hlo & Hhi).
  destruct (pretty_N_digits (Z.to_N n)) as [Hd Hl].
  destruct (pad_to_three_digits _ Hd Hl) as [Hd3 Hl3].
  destruct (point_before_last_two_shape _ Hd3 Hl3)
    as (I & F & Hsplit & Hpoint & HI & HIl & HF & HFl).
  exists I, F. repeat (split; [assumption|]).
  assert (Hfixed : toFixed2 (Fin q)
                   = Some ((if negative then "-" else "") +:+ I +:+ "." +:+ F)).
  { unfold toFixed2. fold negative. fold a.
    rewrite (proj2 (Qcltb_lt _ _) Hlt). fold n. rewrite Hpoint. reflexivity. }
  split; [exact Hfixed|].
  unfold formatDollarAmount. rewrite Hfixed.
  rewrite (insert_commas_fixed negative I F HI HFl). reflexivity.
Qed.

Lemma formatDollarAmount_groups_thousands_witness :
  let q := sampleAmount in
  let negative := Qcltb q 0 in
  let a := if negative then (- q)%Qc else q in
  let n := nearest_hundredth a in
  exists I F : string,
    pad_to_three (pretty (Z.to_N n)) = I +:+ F
    /\ all_digits I = true /\ (1 <= String.length I)%nat
    /\ all_digits F = true /\ String.length F = 2%nat
    /\ (0 <= n)%Z
    /\ (inject_Z n <= this a * inject_Z 100 + Qmake 1 2)%Q
    /\ (this a * inject_Z 100 + Qmake 1 2 < inject_Z n + 1)%Q
    /\ toFixed2 (Fin q)
       = Some ((if negative then "-" else "") +:+ I +:+ "." +:+ F)
    /\ formatDollarAmount (Fin q)
       = Some ("$" +:+ (if negative then "-" else "")
               +:+ group_thousands I +:+ "." +:+ F).
Proof.
  apply (formatDollarAmount_groups_thousands sampleAmount).
  vm_compute. reflexivity.
Defined.

(** 1234567.891 is shown as $1,234,567.89, and its negative with the minus
    sign behind the dollar sign. *)
Example formatDollarAmount_sample :
  formatDollarAmount (Fin sampleAmount) = Some "$1,234,567.89"
  /\ formatDollarAmount (Fin (- sampleAmount)) = Some "$-1,234,567.89"
  /\ formatDollarAmount NaN = Some "$NaN".
Proof. repeat split; vm_compute; reflexivity. Qed.

(** ** The table after a participant is deleted *)

Lemma tableRows_lookup (u : UI) (j : nat) (r : RelevantInfo) :
  st_results (ui_state u) !! j = Some r ->
  tableRows u !! j
  = Some {| cell_name := name <$> (participants (ui_form u) !! j);
            cell_grossIncome := formatDollarAmount (grossMonthlyIncome r);
            cell_percentage := percentText (percentageOfTotal r);
            cell_unadjustedDue := formatDollarAmount (amountDue r);
            cell_adjustedDue := formatDollarAmount (adjustedDue r) |}.
Proof.
  intros Hr. unfold tableRows. rewrite list_lookup_imap, Hr. reflexivity.
Qed.

(** X13. Right after a submit that passed the schema the table has one row
    per participant, with that participant's name and amounts.  The table
    keeps the calculated rows while the names are read from the form as it
    is now: after the participant at [index] is deleted, the table still has
    all its rows with the same amounts, the rows before [index] keep their
    names, and every row from [index] on shows the name of the participant
    that followed (the last row shows none). *)
Theorem table_after_delete_shifts_names (u : UI) (index : nat) :
  BillPay_schema (ui_form u) = true ->
  (index < length (participants (ui_form u)))%nat ->
  let ps := participants (ui_form u) in
  let u1 := dispatch u Submit in
  let u2 := dispatch u1 (DeleteParticipantClick index) in
  length (tableRows u1) = length ps
  /\ length (tableRows u2) = length ps
  /\ length (participants (ui_form u2)) = (length ps - 1)%nat
  /\ forall (j : nat) (p : Participant),
       ps !! j = Some p ->
       exists row1 row2,
         tableRows u1 !! j = Some row1
         /\ tableRows u2 !! j = Some row2
         /\ cell_name row1 = Some (name p)
         /\ cell_adjustedDue row1 = formatDollarAmount (adjusted_of (ui_form u) p)
         /\ cell_grossIncome row2 = cell_grossIncome row1
         /\ cell_percentage row2 = cell_percentage row1
         /\ cell_unadjustedDue row2 = cell_unadjustedDue row1
         /\ cell_adjustedDue row2 = cell_adjustedDue row1
         /\ cell_name row2
            = if (j <? index)%nat then Some (name p)
              else name <$> (ps !! S j).
Proof.
  intros Hs Hidx ps u1 u2.
  assert (Hu1 : u1 = {| ui_state :=
                          {| st_activeStep := 2;
                             st_completed := <[0%nat := true]> (<[1%nat := true]> ∅);
                             st_results := map (row_of (ui_form u)) ps;
                             st_totalGross := totalGross (ui_form u) |};
                        ui_form := ui_form u |}).
  { unfold u1. cbn [dispatch]. rewrite (handleSubmit_valid _ _ Hs). reflexivity. }
  assert (Hres2 : st_results (ui_state u2) = map (row_of (ui_form u)) ps).
  { unfold u2. rewrite Hu1. reflexivity. }
  assert (Hform2 : participants (ui_form u2) = deleteParticipant index ps).
  { unfold u2. rewrite Hu1. reflexivity. }
  destruct (deleteParticipant_lookup index ps) as (Hbefore & Hafter & Hlen).
  split; [|split; [|split]].
  - unfold tableRows. rewrite length_imap, Hu1. apply length_map.
  - unfold tableRows. rewrite length_imap, Hres2. apply length_map.
  - rewrite Hform2, Hlen. unfold ps.
    rewrite (proj2 (Nat.ltb_lt _ _) Hidx). reflexivity.
  - intros j p Hj.
    assert (Hr : map (row_of (ui_form u)) ps !! j = Some (row_of (ui_form u) p))
      by (rewrite list_lookup_fmap, Hj; reflexivity).
    do 2 eexists.
    split; [apply tableRows_lookup; rewrite Hu1; exact Hr|].
    split; [apply tableRows_lookup; rewrite Hres2; exact Hr|].
    cbn [cell_name cell_grossIncome cell_percentage cell_unadjustedDue
         cell_adjustedDue].
    rewrite Hu1. cbn [ui_form]. fold ps. rewrite Hj.
    split; [reflexivity|]. split; [reflexivity|].
    repeat (split; [reflexivity|]).
    rewrite Hform2. destruct (Nat.ltb_spec j index) as [Hlt | Hge].
    + rewrite (Hbefore j Hlt), Hj. reflexivity.
    + rewrite (Hafter j Hge). reflexivity.
Qed.

Lemma table_after_delete_shifts_names_witness :
  let u := {| ui_state := initialState; ui_form := scenarioB |} in
  let ps := participants (ui_form u) in
  let u1 := dispatch u Submit in
  let u2 := dispatch u1 (DeleteParticipantClick 0) in
  length (tableRows u1) = length ps
  /\ length (tableRows u2) = length ps
  /\ length (participants (ui_form u2)) = (length ps - 1)%nat
  /\ forall (j : nat) (p : Participant),
       ps !! j = Some p ->
       exists row1 row2,
         tableRows u1 !! j = Some row1
         /\ tableRows u2 !! j = Some row2
         /\ cell_name row1 = Some (name p)
         /\ cell_adjustedDue row1 = formatDollarAmount (adjusted_of (ui_form u) p)
         /\ cell_grossIncome row2 = cell_grossIncome row1
         /\ cell_percentage row2 = cell_percentage row1
         /\ cell_unadjustedDue row2 = cell_unadjustedDue row1
         /\ cell_adjustedDue row2 = cell_adjustedDue row1
         /\ cell_name row2
            = if (j <? 0)%nat then Some (name p)
              else name <$> (ps !! S j).
Proof.
  apply (table_after_delete_shifts_names
           {| ui_state := initialState; ui_form := scenarioB |} 0).
  - vm_compute. reflexivity.
  - cbn. lia.
Defined.

(** Scenario B on screen: after the calculation the rows read A, B; once A is
    deleted the first row still carries A's amounts under B's name and the
    second row has no name. *)
Example scenarioB_table_after_delete :
  let u := {| ui_state := initialState; ui_form := scenarioB |} in
  let u2 := run [Submit; DeleteParticipantClick 0] u in
  map cell_name (tableRows u2) = [Some "B"; None]
  /\ map cell_adjustedDue (tableRows u2) = [Some "$400.00"; Some "$600.00"].
Proof. split; vm_compute; reflexivity. Qed.
